(** * Routes store: a model of [Progs/individual.py]

    The program keeps travel routes in an SQLite file with two tables,
    [start] (the origins) and [route].  This development embeds

    - the two tables with their [INTEGER PRIMARY KEY AUTOINCREMENT] keys,
    - the SQL statements of the program as functions on the store,
    - the [sqlite3] connection (implicit transaction, [commit], [close]) as a
      small state-and-exception monad,
    - [create_db], [add_route], [select_all], [select_route] as programs of
      that monad, and [display_routes] as the list of the lines it prints,

    and proves the properties the specification states about them. *)

From stdpp Require Import base list strings gmap pretty sorting.
From Stdlib Require Import ZArith Lia Ascii.

Local Open Scope Z_scope.
Local Open Scope string_scope.

(** ** Data model *)

(** A row of [start]: [name_id INTEGER PRIMARY KEY AUTOINCREMENT],
    [start_point TEXT NOT NULL]. *)
Module Start.
Record row : Type := Row { name_id : Z; start_point : string }.
End Start.

(** A row of [route]: [route_id INTEGER PRIMARY KEY AUTOINCREMENT],
    [name_id INTEGER NOT NULL], [first_station TEXT NOT NULL],
    [second_station TEXT NOT NULL]. *)
Module Route.
Record row : Type :=
  Row { route_id : Z; name_id : Z; first_station : string; second_station : string }.
End Route.

(** A table holds its rows in scan order (ascending rowid: an insert appends,
    its key being larger than every key present) and the counter that
    AUTOINCREMENT keeps in [sqlite_sequence]: the largest key ever handed
    out, [0] for a table never inserted into. *)
Record table (R : Type) : Type := Table { rows : list R; seq : Z }.
Arguments Table {R} _ _.
Arguments rows {R} _.
Arguments seq {R} _.

(** The store file: each of the two tables is absent or present.  The
    [FOREIGN KEY] clause is declarative only, SQLite does not enforce it
    unless [PRAGMA foreign_keys] is switched on, which the program never
    does: a store may hold route rows that reference no origin. *)
Record db : Type := Db { start : option (table Start.row); route : option (table Route.row) }.

(** A file that has just been created: no table. *)
Definition empty_db : db := Db None None.

(** What [sqlite3] raises in this program. *)
Inductive exn : Type :=
  | NoSuchTable (name : string)   (* OperationalError: no such table *)
  | DatabaseFull.                 (* the largest rowid has been used *)

Inductive result (A : Type) : Type :=
  | Ok (a : A)
  | Err (e : exn).
Arguments Ok {A} _.
Arguments Err {A} _.

Definition result_map {A B} (f : A -> B) (r : result A) : result B :=
  match r with Ok a => Ok (f a) | Err e => Err e end.

Definition need_table {R} (name : string) (t : option (table R)) : result (table R) :=
  match t with Some t => Ok t | None => Err (NoSuchTable name) end.

(** ** Key allocation *)

(** The largest rowid SQLite can store. *)
Definition MAX_ROWID : Z := 9223372036854775807.

(** The largest key of a table, [None] when the table is empty. *)
Definition largest (keys : list Z) : option Z :=
  match keys with
  | [] => None
  | k :: ks => Some (foldr Z.max k ks)
  end.

(** The key of a new row of an AUTOINCREMENT table: one more than the largest
    key present ([1] in an empty table), and at least one more than the
    sequence counter; the insert fails once [MAX_ROWID] has been used. *)
Definition new_rowid (keys : list Z) (sq : Z) : result Z :=
  if bool_decide (largest keys = Some MAX_ROWID \/ sq = MAX_ROWID) then Err DatabaseFull
  else Ok (Z.max (match largest keys with Some k => k + 1 | None => 1 end) (sq + 1)).

(** ** The SQL statements of the program *)

(** [CREATE TABLE IF NOT EXISTS start (...)], lines 47-54. *)
Definition sql_create_start (d : db) : db :=
  match start d with
  | Some _ => d
  | None => Db (Some (Table [] 0)) (route d)
  end.

(** [CREATE TABLE IF NOT EXISTS route (...)], lines 57-67. *)
Definition sql_create_route (d : db) : db :=
  match route d with
  | Some _ => d
  | None => Db (start d) (Some (Table [] 0))
  end.

(** [SELECT name_id FROM start WHERE start_point = ?], lines 79-84: the keys
    of the origins whose text is exactly [first], in scan order. *)
Definition sql_select_name_id (first : string) (d : db) : result (list Z) :=
  match need_table "start" (start d) with
  | Err e => Err e
  | Ok t =>
      Ok (Start.name_id <$> filter (fun s => Start.start_point s = first) (rows t))
  end.

(** [INSERT INTO start (start_point) VALUES (?)], lines 89-94.  Returns the
    store and the key of the new row ([cursor.lastrowid]). *)
Definition sql_insert_start (first : string) (d : db) : result (db * Z) :=
  match need_table "start" (start d) with
  | Err e => Err e
  | Ok t =>
      match new_rowid (Start.name_id <$> rows t) (seq t) with
      | Err e => Err e
      | Ok k => Ok (Db (Some (Table (rows t ++ [Start.Row k first]) k)) (route d), k)
      end
  end.

(** [INSERT INTO route (name_id, first_station, second_station)
    VALUES (?, ?, ?)], lines 99-105. *)
Definition sql_insert_route (name_id : Z) (first second : string) (d : db)
  : result (db * Z) :=
  match need_table "route" (route d) with
  | Err e => Err e
  | Ok t =>
      match new_rowid (Route.route_id <$> rows t) (seq t) with
      | Err e => Err e
      | Ok k =>
          Ok (Db (start d) (Some (Table (rows t ++ [Route.Row k name_id first second]) k)), k)
      end
  end.

(** The join both queries share,
    [FROM route INNER JOIN start ON start.name_id = route.name_id]:
    each route row, in scan order, with every origin of the same [name_id]. *)
Definition join_on (ss : list Start.row) (rs : list Route.row)
  : list (Route.row * Start.row) :=
  r ← rs;
  s ← filter (fun s => Start.name_id s = Route.name_id r) ss;
  [(r, s)].

(** The columns both queries return:
    [SELECT start.start_point, route.first_station, route.second_station]. *)
Definition columns (p : Route.row * Start.row) : string * string * string :=
  (Start.start_point p.2, Route.first_station p.1, Route.second_station p.1).

(** The query of [select_all], lines 118-124. *)
Definition sql_select_join (d : db) : result (list (string * string * string)) :=
  match need_table "route" (route d) with
  | Err e => Err e
  | Ok tr =>
      match need_table "start" (start d) with
      | Err e => Err e
      | Ok ts => Ok (columns <$> join_on (rows ts) (rows tr))
      end
  end.

(** The query of [select_route], lines 145-153: the same join with
    [WHERE route.second_station = ?]. *)
Definition sql_select_join_where (find_end : string) (d : db)
  : result (list (string * string * string)) :=
  match need_table "route" (route d) with
  | Err e => Err e
  | Ok tr =>
      match need_table "start" (start d) with
      | Err e => Err e
      | Ok ts =>
          Ok (columns <$>
                filter (fun p => Route.second_station p.1 = find_end)
                  (join_on (rows ts) (rows tr)))
      end
  end.

(** ** The connection *)

(** What a connection sees: the store file as last committed, and the
    pending state of the open transaction, if one is open. *)
Record world : Type := World { file : db; txn : option db }.

Definition view (w : world) : db :=
  match txn w with Some d => d | None => file w end.

(** A program over a connection returns a value or raises, and leaves a
    world behind. *)
Definition M (A : Type) : Type := world -> result A * world.

Definition ret {A} (a : A) : M A := fun w => (Ok a, w).

Definition bind {A B} (m : M A) (k : A -> M B) : M B :=
  fun w =>
    match m w with
    | (Ok a, w') => k a w'
    | (Err e, w') => (Err e, w')
    end.

Notation "x <- m ;; k" := (bind m (fun x => k))
  (at level 100, m at next level, right associativity).
Notation "m ;; k" := (bind m (fun _ => k))
  (at level 100, right associativity).

(** [sqlite3.connect(database_path)]: a fresh connection, no transaction. *)
Definition connect : M unit := fun w => (Ok tt, World (file w) None).

(** [cursor.execute] of a query: reads what the connection sees. *)
Definition execute_query {A} (q : db -> result A) : M A :=
  fun w => (q (view w), w).

(** [cursor.execute] of a [CREATE TABLE]: [sqlite3] opens no transaction for
    it, so outside a transaction it goes to the file at once. *)
Definition execute_ddl (u : db -> db) : M unit :=
  fun w =>
    match txn w with
    | None => (Ok tt, World (u (file w)) None)
    | Some d => (Ok tt, World (file w) (Some (u d)))
    end.

(** [cursor.execute] of an [INSERT]: [sqlite3] opens a transaction before
    it; the new row is pending until [commit].  A failing statement changes
    nothing. *)
Definition execute_insert (u : db -> result (db * Z)) : M Z :=
  fun w =>
    match u (view w) with
    | Ok (d, k) => (Ok k, World (file w) (Some d))
    | Err e => (Err e, w)
    end.

(** [conn.commit()]. *)
Definition commit : M unit := fun w => (Ok tt, World (view w) None).

(** [conn.close()]: what is pending is rolled back. *)
Definition close : M unit := fun w => (Ok tt, World (file w) None).

(** Running a function of the program on a store file: its outcome and the
    file it leaves.  When the function raises, its connection is dropped
    with whatever was pending. *)
Definition run {A} (m : M A) (d : db) : result A * db :=
  let '(r, w) := m (World d None) in (r, file w).

(** [cursor.fetchone()]. *)
Definition fetchone {A} (l : list A) : option A := head l.

(** ** The functions of the program *)

(** A route record as the queries build it: a dict with the keys
    ["start_point"], ["first_station"], ["second_station"]. *)
Definition to_dict (r : string * string * string) : gmap string string :=
  <["start_point" := r.1.1]> (<["first_station" := r.1.2]> (<["second_station" := r.2]> ∅)).

(** [create_db], lines 39-69. *)
Definition create_db : M unit :=
  connect ;;
  execute_ddl sql_create_start ;;
  execute_ddl sql_create_route ;;
  close.

(** [add_route], lines 72-107. *)
Definition add_route (first second : string) : M unit :=
  connect ;;
  found <- execute_query (sql_select_name_id first) ;;
  name_id <- match fetchone found with
             | None => execute_insert (sql_insert_start first)
             | Some k => ret k
             end ;;
  execute_insert (sql_insert_route name_id first second) ;;
  commit ;;
  close.

(** [select_all], lines 110-135. *)
Definition select_all : M (list (gmap string string)) :=
  connect ;;
  fetched <- execute_query sql_select_join ;;
  close ;;
  ret (to_dict <$> fetched).

(** [select_route], lines 138-163. *)
Definition select_route (find_end : string) : M (list (gmap string string)) :=
  connect ;;
  fetched <- execute_query (sql_select_join_where find_end) ;;
  close ;;
  ret (to_dict <$> fetched).

(** ** Text output *)

(** Python strings are sequences of code points; here a string is its UTF-8
    encoding, as SQLite stores it, and [py_len] counts the code points: the
    bytes that do not continue a multi-byte character ([10xxxxxx]). *)
Definition is_continuation (c : ascii) : bool :=
  let n := N_of_ascii c in (128 <=? n)%N && (n <? 192)%N.

Fixpoint py_len (s : string) : nat :=
  match s with
  | EmptyString => 0%nat
  | String c s' => ((if is_continuation c then 0 else 1) + py_len s')%nat
  end.

(** [c * n] for a one-character string [c]. *)
Fixpoint rep (n : nat) (c : string) : string :=
  match n with
  | O => ""
  | S n' => c +:+ rep n' c
  end.

(** The format field [{:^width}]: the text centred with spaces, the odd
    space going to the right; a text longer than [width] is not cut. *)
Definition centre (width : nat) (s : string) : string :=
  let pad := (width - py_len s)%nat in
  rep (pad / 2) " " +:+ s +:+ rep (pad - pad / 2) " ".

(** ["| {:^4} | {:^30} | {:^20} |".format(a, b, c)], lines 20 and 28. *)
Definition format_row (a b c : string) : string :=
  "| " +:+ centre 4 a +:+ " | " +:+ centre 30 b +:+ " | " +:+ centre 20 c +:+ " |".

(** ["+-{}-+-{}-+-{}-+".format("-" * 4, "-" * 30, "-" * 20)], lines 15-17. *)
Definition line : string :=
  "+-" +:+ rep 4 "-" +:+ "-+-" +:+ rep 30 "-" +:+ "-+-" +:+ rep 20 "-" +:+ "-+".

(** [enumerate(l, start)]. *)
Fixpoint enumerate {A} (l : list A) (start : nat) : list (nat * A) :=
  match l with
  | [] => []
  | x :: l' => (start, x) :: enumerate l' (S start)
  end.

(** [station.get(key, "")]. *)
Definition get (station : gmap string string) (key : string) : string :=
  default "" (station !! key).

(** [display_routes], lines 10-36: the lines it prints, in order. *)
Definition display_routes (routes : list (gmap string string)) : list string :=
  match routes with
  | _ :: _ =>
      [line; format_row "№" "Место отправки" "Место прибытия"; line]
      ++ (p ← enumerate routes 1;
          [format_row (pretty p.1) (get p.2 "start_point") (get p.2 "second_station");
           line])
  | [] => ["Список маршрутов пуст."]
  end.

(** ** The command dispatcher *)

(** A parsed command line, lines 223-230. *)
Inductive command : Type :=
  | Add (first second : string)
  | Display
  | Select (second : string).

(** [main], lines 220-230, for a command line that names a subcommand: the
    lines printed and the store file left.  A function that raises ends the
    process: nothing more is printed, and the file is as that function left
    it. *)
Definition main (cmd : command) (d : db) : result (list string) * db :=
  match run create_db d with
  | (Err e, d1) => (Err e, d1)
  | (Ok _, d1) =>
      match cmd with
      | Add first second =>
          let '(r, d2) := run (add_route first second) d1 in
          (result_map (fun _ => []) r, d2)
      | Display =>
          let '(r, d2) := run select_all d1 in
          (result_map display_routes r, d2)
      | Select second =>
          let '(r, d2) := run (select_route second) d1 in
          (result_map display_routes r, d2)
      end
  end.

(** ** Observations used in the statements *)

Definition start_rows (d : db) : list Start.row :=
  match start d with Some t => rows t | None => [] end.

Definition route_rows (d : db) : list Route.row :=
  match route d with Some t => rows t | None => [] end.

(** The names of the tables of the store, as its catalogue lists them. *)
Definition tables (d : db) : list string :=
  (match start d with Some _ => ["start"] | None => [] end)
  ++ (match route d with Some _ => ["route"] | None => [] end).

(** What [add_route] finds when it looks the origin up. *)
Definition found_origin (first : string) (ss : list Start.row) : option Z :=
  fetchone (Start.name_id <$> filter (fun s => Start.start_point s = first) ss).

(** Both tables exist. *)
Definition initialized (d : db) : Prop :=
  is_Some (start d) /\ is_Some (route d).

(** Neither table has used up its keys. *)
Definition room {R} (key : R -> Z) (t : table R) : Prop :=
  largest (key <$> rows t) <> Some MAX_ROWID /\ seq t <> MAX_ROWID.

Definition has_room (d : db) : Prop :=
  (forall t, start d = Some t -> room Start.name_id t)
  /\ (forall t, route d = Some t -> room Route.route_id t).

(** The store that [create_db] makes of a new file. *)
Definition fresh_db : db := (run create_db empty_db).2.

(** The operations of the program, and the file each leaves behind. *)
Inductive op : Type :=
  | OpCreate
  | OpAdd (first second : string)
  | OpSelectAll
  | OpSelectRoute (find_end : string).

Definition exec (o : op) (d : db) : db :=
  match o with
  | OpCreate => (run create_db d).2
  | OpAdd first second => (run (add_route first second) d).2
  | OpSelectAll => (run select_all d).2
  | OpSelectRoute find_end => (run (select_route find_end) d).2
  end.

(** The stores the program can produce from a new file. *)
Inductive reachable : db -> Prop :=
  | reachable_fresh : reachable fresh_db
  | reachable_step d o : reachable d -> reachable (exec o d).

(** The stores produced from a new file by [add_route] alone. *)
Inductive reachable_by_add : db -> Prop :=
  | by_add_fresh : reachable_by_add fresh_db
  | by_add_step d first second :
      reachable_by_add d -> reachable_by_add (exec (OpAdd first second) d).

(** The invariant of the reachable stores: both tables exist, the keys and
    the texts of the origins are unique, and every route row names an origin
    whose text is its first station. *)
Definition linked (ss : list Start.row) (r : Route.row) : Prop :=
  exists s, s ∈ ss /\ Start.name_id s = Route.name_id r
            /\ Start.start_point s = Route.first_station r.

Record consistent (d : db) : Prop := Consistent {
  cons_init : initialized d;
  cons_keys : NoDup (Start.name_id <$> start_rows d);
  cons_texts : NoDup (Start.start_point <$> start_rows d);
  cons_links : Forall (linked (start_rows d)) (route_rows d)
}.

(** Every route row references an existing origin. *)
Definition referential_integrity (d : db) : Prop :=
  forall r, r ∈ route_rows d ->
    exists s, s ∈ start_rows d /\ Start.name_id s = Route.name_id r.

(** The formatter the specification wonders about: as [display_routes], with
    the first-leg text in the second column. *)
Definition display_first_leg (routes : list (gmap string string)) : list string :=
  match routes with
  | _ :: _ =>
      [line; format_row "№" "Место отправки" "Место прибытия"; line]
      ++ (p ← enumerate routes 1;
          [format_row (pretty p.1) (get p.2 "first_station") (get p.2 "second_station");
           line])
  | [] => ["Список маршрутов пуст."]
  end.

(** ** Observations on the history of a store *)

(** The keys of a table are [1], [2], ... in row order, and the counter is
    the last of them. *)
Definition dense {R} (key : R -> Z) (t : table R) : Prop :=
  key <$> rows t = seqZ 1 (Z.of_nat (length (rows t)))
  /\ seq t = Z.of_nat (length (rows t)).

(** The rows of each table are in key order. *)
Definition ascending_keys (d : db) : Prop :=
  StronglySorted Z.lt (Start.name_id <$> start_rows d)
  /\ StronglySorted Z.lt (Route.route_id <$> route_rows d).

(** The command [add -f first -s second] run once for each pair of [l], in
    order, each run being a call of [main]. *)
Definition add_all (l : list (string * string)) (d : db) : db :=
  foldl (fun d p => (main (Add p.1 p.2) d).2) d l.

(** The two legs of a route row, as [add] received them. *)
Definition legs (r : Route.row) : string * string :=
  (Route.first_station r, Route.second_station r).

(** The record the queries return for a route added as [(first, second)]. *)
Definition record_of (p : string * string) : gmap string string :=
  to_dict (p.1, p.1, p.2).

(** The store holds the routes [l], added in that order to a new file. *)
Record recorded (l : list (string * string)) (d : db) : Prop := Recorded {
  rec_consistent : consistent d;
  rec_legs : legs <$> route_rows d = l;
  rec_origins : forall x, x ∈ Start.start_point <$> start_rows d <-> x ∈ l.*1;
  rec_start_dense : forall ts, start d = Some ts -> dense Start.name_id ts;
  rec_route_dense : forall tr, route d = Some tr -> dense Route.route_id tr;
  rec_fewer : (length (start_rows d) <= length (route_rows d))%nat
}.

(** The origin a route row joins with first, if any. *)
Definition origin_of (ss : list Start.row) (r : Route.row) : option Start.row :=
  head (filter (fun s => Start.name_id s = Route.name_id r) ss).

(** The record the queries build from a route row and an origin. *)
Definition joined (r : Route.row) (s : Start.row) : gmap string string :=
  to_dict (columns (r, s)).

(** Two records that show the same in the table. *)
Definition same_cells (a b : gmap string string) : Prop :=
  get a "start_point" = get b "start_point"
  /\ get a "second_station" = get b "second_station".

(** The shown texts of a record fit their columns. *)
Definition fits (station : gmap string string) : Prop :=
  (py_len (get station "start_point") <= 30)%nat
  /\ (py_len (get station "second_station") <= 20)%nat.

(** * Proofs *)

(** ** Keys *)

Section Keys.
Implicit Types (keys : list Z) (k sq : Z).

Lemma largest_bound keys m k : largest keys = Some m -> k ∈ keys -> k <= m.
Proof.
  destruct keys as [|k0 ks]; [done|]. simpl. intros [= <-].
  revert k0. induction ks as [|k1 ks IH]; intros k0 Hin.
  - apply list_elem_of_singleton in Hin. simpl. lia.
  - simpl. apply elem_of_cons in Hin as [->|Hin].
    + assert (k0 <= foldr Z.max k0 ks) by (apply IH; left). lia.
    + apply elem_of_cons in Hin as [->|Hin]; [lia|].
      assert (k <= foldr Z.max k0 ks) by (apply IH; by right). lia.
Qed.

(** A new key is larger than every key of the table. *)
Lemma new_rowid_fresh keys sq k : new_rowid keys sq = Ok k -> Forall (fun x => x < k) keys.
Proof.
  unfold new_rowid. case_bool_decide; [done|]. intros [= <-].
  apply Forall_forall. intros x Hx.
  destruct (largest keys) as [m|] eqn:Hm.
  - pose proof (largest_bound _ _ _ Hm Hx). lia.
  - destruct keys; [by apply elem_of_nil in Hx | done].
Qed.

Lemma new_rowid_not_in keys sq k : new_rowid keys sq = Ok k -> k ∉ keys.
Proof.
  intros H Hin. apply new_rowid_fresh in H.
  rewrite Forall_forall in H. specialize (H _ Hin). lia.
Qed.

(** A table with room hands out a key. *)
Lemma new_rowid_total keys sq :
  largest keys <> Some MAX_ROWID -> sq <> MAX_ROWID -> exists k, new_rowid keys sq = Ok k.
Proof.
  intros H1 H2. unfold new_rowid. rewrite bool_decide_eq_false_2; [eauto|].
  intros [?|?]; done.
Qed.
End Keys.

(** ** The functions, run on a store *)

(** Unfolds a run of [add_route] down to its SQL statements. *)
Ltac run_add_route :=
  unfold run, add_route, bind, connect, execute_query, execute_insert, commit,
    close, ret, view, sql_select_name_id, sql_insert_start, sql_insert_route.

Lemma run_create_db d :
  run create_db d = (Ok (), sql_create_route (sql_create_start d)).
Proof. done. Qed.

Lemma run_select_all d :
  run select_all d = (result_map (fmap to_dict) (sql_select_join d), d).
Proof.
  unfold run, select_all, bind, connect, execute_query, close, ret, view. simpl.
  by destruct (sql_select_join d).
Qed.

Lemma run_select_route find_end d :
  run (select_route find_end) d
  = (result_map (fmap to_dict) (sql_select_join_where find_end d), d).
Proof.
  unfold run, select_route, bind, connect, execute_query, close, ret, view. simpl.
  by destruct (sql_select_join_where find_end d).
Qed.

(** [add_route] returns only on a store with both tables, and leaves one of
    two stores: with a new route row, or with a new origin and a new route
    row. *)
Lemma add_route_returns first second d d' :
  run (add_route first second) d = (Ok (), d') ->
  exists ts tr j,
    start d = Some ts /\ route d = Some tr
    /\ new_rowid (Route.route_id <$> rows tr) (seq tr) = Ok j
    /\ ((exists k, found_origin first (rows ts) = Some k
           /\ d' = Db (Some ts)
                     (Some (Table (rows tr ++ [Route.Row j k first second]) j)))
        \/ (exists k, found_origin first (rows ts) = None
              /\ new_rowid (Start.name_id <$> rows ts) (seq ts) = Ok k
              /\ d' = Db (Some (Table (rows ts ++ [Start.Row k first]) k))
                        (Some (Table (rows tr ++ [Route.Row j k first second]) j)))).
Proof.
  destruct d as [[ts|] [tr|]];
    run_add_route;
    simpl; try done.
  - fold (found_origin first (rows ts)).
    destruct (found_origin first (rows ts)) as [k|] eqn:Hf; simpl.
    + destruct (new_rowid (Route.route_id <$> rows tr) (seq tr)) as [j|] eqn:Hj;
        simpl; [|done].
      intros [= <-]. exists ts, tr, j. destruct ts. eauto 10.
    + destruct (new_rowid (Start.name_id <$> rows ts) (seq ts)) as [k|] eqn:Hk;
        simpl; [|done].
      destruct (new_rowid (Route.route_id <$> rows tr) (seq tr)) as [j|] eqn:Hj;
        simpl; [|done].
      intros [= <-]. exists ts, tr, j. eauto 10.
  - fold (found_origin first (rows ts)).
    destruct (found_origin first (rows ts)); simpl; [done|].
    by destruct (new_rowid (Start.name_id <$> rows ts) (seq ts)).
Qed.

(** When [add_route] raises, nothing was committed. *)
Lemma add_route_raises first second d e d' :
  run (add_route first second) d = (Err e, d') -> d' = d.
Proof.
  destruct d as [[ts|] [tr|]];
    run_add_route;
    simpl; try (by intros [= _ <-]).
  - destruct (fetchone _); simpl.
    + destruct (new_rowid (Route.route_id <$> rows tr) (seq tr)); simpl;
        by intros [= <-].
    + destruct (new_rowid (Start.name_id <$> rows ts) (seq ts)); simpl;
        [|by intros [= _ <-]].
      destruct (new_rowid (Route.route_id <$> rows tr) (seq tr)); simpl;
        by intros [= <-].
  - destruct (fetchone _); simpl; [by intros [= _ <-]|].
    destruct (new_rowid (Start.name_id <$> rows ts) (seq ts)); simpl;
      by intros [= _ <-].
Qed.

(** On a store with both tables and room in each, [add_route] returns. *)
Lemma add_route_total first second d :
  initialized d -> has_room d -> exists d', run (add_route first second) d = (Ok (), d').
Proof.
  intros [[ts Hs] [tr Hr]] [Rs Rr].
  destruct (Rs _ Hs) as [Rs1 Rs2], (Rr _ Hr) as [Rr1 Rr2].
  destruct (new_rowid_total _ _ Rs1 Rs2) as [k Hk].
  destruct (new_rowid_total _ _ Rr1 Rr2) as [j Hj].
  destruct d as [s r]; simpl in *; subst.
  run_add_route; simpl.
  destruct (fetchone _); simpl; rewrite ?Hk; simpl; rewrite Hj; simpl; eauto.
Qed.

(** ** The lookup of the origin *)

Lemma found_origin_Some first ss k :
  found_origin first ss = Some k ->
  exists s, s ∈ ss /\ Start.start_point s = first /\ Start.name_id s = k.
Proof.
  unfold found_origin, fetchone. intros H.
  apply head_Some_elem_of, list_elem_of_fmap in H as (s & -> & Hs).
  apply list_elem_of_filter in Hs as [? ?]. eauto.
Qed.

Lemma found_origin_no_match first ss :
  found_origin first ss = None
  <-> filter (fun s => Start.start_point s = first) ss = [].
Proof. unfold found_origin, fetchone. by destruct (filter _ ss). Qed.

Lemma found_origin_None first ss :
  found_origin first ss = None <-> first ∉ Start.start_point <$> ss.
Proof.
  rewrite found_origin_no_match. split.
  - intros H (s & -> & Hs)%list_elem_of_fmap.
    assert (s ∈ filter (fun s' => Start.start_point s' = Start.start_point s) ss) as Hin
      by (by apply list_elem_of_filter).
    rewrite H in Hin. by apply elem_of_nil in Hin.
  - intros H. destruct (filter _ ss) as [|s l] eqn:Hl; [done|]. exfalso. apply H.
    assert (s ∈ filter (fun s' => Start.start_point s' = first) ss) as Hin
      by (rewrite Hl; left).
    apply list_elem_of_filter in Hin as [<- ?]. by apply list_elem_of_fmap_2.
Qed.

(** Once the origin is stored, the next lookup finds it. *)
Lemma found_origin_stored first ss k :
  found_origin first ss = None ->
  found_origin first (ss ++ [Start.Row k first]) = Some k.
Proof.
  intros H%found_origin_no_match. unfold found_origin, fetchone.
  rewrite filter_app, H. simpl. by rewrite filter_cons_True.
Qed.

(** Rows of a table with unique keys are told apart by their key. *)
Lemma unique_key {R} (key : R -> Z) (l : list R) x y :
  NoDup (key <$> l) -> x ∈ l -> y ∈ l -> key x = key y -> x = y.
Proof.
  induction l as [|a l IH]; [by intros _ ?%elem_of_nil|].
  rewrite fmap_cons, NoDup_cons. intros [Ha Hl] Hx Hy E.
  apply elem_of_cons in Hx as [->|Hx]; apply elem_of_cons in Hy as [->|Hy]; auto.
  - exfalso. apply Ha. rewrite E. by apply list_elem_of_fmap_2.
  - exfalso. apply Ha. rewrite <- E. by apply list_elem_of_fmap_2.
Qed.

(** ** The invariant *)

Lemma linked_mono ss ss' r : ss ⊆ ss' -> linked ss r -> linked ss' r.
Proof. intros Hsub (s & Hs & ?). exists s. split; [by apply Hsub | done]. Qed.

Lemma consistent_fresh : consistent fresh_db.
Proof.
  split; simpl.
  - split; eexists; reflexivity.
  - apply NoDup_nil_2.
  - apply NoDup_nil_2.
  - apply Forall_nil_2.
Qed.

Lemma consistent_add first second d d' :
  consistent d -> run (add_route first second) d = (Ok (), d') -> consistent d'.
Proof.
  intros [_ Hk Ht Hl] Hrun.
  apply add_route_returns in Hrun
    as (ts & tr & j & Hs & Hr & Hj & [(k & Hf & ->)|(k & Hf & Hnew & ->)]);
    unfold start_rows, route_rows in *; rewrite Hs, Hr in *;
    split; unfold start_rows, route_rows; simpl;
    try (split; eexists; reflexivity); try done.
  - apply Forall_app. split; [done|]. apply Forall_singleton.
    apply found_origin_Some in Hf as (s & ? & ? & ?). by exists s.
  - rewrite fmap_app. apply NoDup_app. split; [done|]. split; [|apply NoDup_singleton].
    intros x Hx ->%list_elem_of_singleton. by apply new_rowid_not_in in Hnew.
  - rewrite fmap_app. apply NoDup_app. split; [done|]. split; [|apply NoDup_singleton].
    intros x Hx ->%list_elem_of_singleton. by apply found_origin_None in Hf.
  - apply Forall_app. split.
    + eapply Forall_impl; [exact Hl|]. intros r. apply linked_mono.
      intros x Hx. apply elem_of_app. by left.
    + apply Forall_singleton. exists (Start.Row k first). split; [|done].
      apply elem_of_app. right. left.
Qed.

Lemma create_db_initialized d : initialized d -> (run create_db d).2 = d.
Proof. by intros [[ts Hs] [tr Hr]]; destruct d; simpl in *; subst. Qed.

Lemma consistent_exec o d : consistent d -> consistent (exec o d).
Proof.
  intros Hd. destruct o as [|first second| |find_end]; unfold exec.
  - rewrite create_db_initialized; [done | apply Hd].
  - destruct (run (add_route first second) d) as [[[]|e] d'] eqn:Hrun; cbn [snd].
    + eapply consistent_add; eauto.
    + by apply add_route_raises in Hrun as ->.
  - by rewrite run_select_all.
  - by rewrite run_select_route.
Qed.

Lemma reachable_consistent d : reachable d -> consistent d.
Proof. induction 1; auto using consistent_fresh, consistent_exec. Qed.

Lemma reachable_by_add_reachable d : reachable_by_add d -> reachable d.
Proof. induction 1; [constructor | by apply (reachable_step _ (OpAdd _ _))]. Qed.

(** ** The queries *)

Lemma elem_of_join_on ss rs r s :
  (r, s) ∈ join_on ss rs <-> r ∈ rs /\ s ∈ ss /\ Start.name_id s = Route.name_id r.
Proof.
  unfold join_on. rewrite list_elem_of_bind. split.
  - intros (r' & Hin & Hr). apply list_elem_of_bind in Hin as (s' & Hin & Hs).
    apply list_elem_of_singleton in Hin as [= -> ->].
    apply list_elem_of_filter in Hs as [? ?]. done.
  - intros (Hr & Hs & E). exists r. split; [|done].
    apply list_elem_of_bind. exists s. split; [left|]. by apply list_elem_of_filter.
Qed.

Lemma to_dict_start_point r : to_dict r !! "start_point" = Some r.1.1.
Proof. unfold to_dict. by rewrite lookup_insert_eq. Qed.

Lemma to_dict_first_station r : to_dict r !! "first_station" = Some r.1.2.
Proof. unfold to_dict. rewrite lookup_insert_ne by done. by rewrite lookup_insert_eq. Qed.

Lemma to_dict_second_station r : to_dict r !! "second_station" = Some r.2.
Proof. unfold to_dict. rewrite !lookup_insert_ne by done. by rewrite lookup_insert_eq. Qed.

(** The records [select_all] returns on a store with both tables. *)
Lemma select_all_returns d ts tr :
  start d = Some ts -> route d = Some tr ->
  run select_all d = (Ok (to_dict <$> (columns <$> join_on (rows ts) (rows tr))), d).
Proof.
  intros Hs Hr. rewrite run_select_all. unfold sql_select_join. by rewrite Hs, Hr.
Qed.

Lemma select_route_returns find_end d ts tr :
  start d = Some ts -> route d = Some tr ->
  run (select_route find_end) d
  = (Ok (to_dict <$> (columns <$>
           filter (fun p => Route.second_station p.1 = find_end)
             (join_on (rows ts) (rows tr)))), d).
Proof.
  intros Hs Hr. rewrite run_select_route. unfold sql_select_join_where.
  by rewrite Hs, Hr.
Qed.

(** Filtering before or after a projection that keeps the tested field. *)
Lemma fmap_filter_agree {A B} (f : A -> B) (P : A -> Prop) (Q : B -> Prop)
    `{!forall a, Decision (P a)} `{!forall b, Decision (Q b)} (l : list A) :
  (forall a, P a <-> Q (f a)) -> f <$> filter P l = filter Q (f <$> l).
Proof.
  intros HPQ. induction l as [|a l IH]; [done|].
  rewrite fmap_cons. destruct (decide (P a)) as [Ha|Ha].
  - rewrite !filter_cons_True by (done || by apply HPQ). by rewrite fmap_cons, IH.
  - rewrite !filter_cons_False by (done || by rewrite <- HPQ). done.
Qed.

(** C1. On every store, once [add_route first second] has returned,
    [select_all] returns a list that holds a record whose ["start_point"] is
    [first] and whose ["second_station"] is [second]; and [add_route] does
    return on every store that has both tables and room for a new row. *)
Theorem add_route_then_select_all d first second :
  (initialized d -> has_room d ->
   exists d', run (add_route first second) d = (Ok (), d'))
  /\ (forall d', run (add_route first second) d = (Ok (), d') ->
      exists recs, run select_all d' = (Ok recs, d')
        /\ exists rec, rec ∈ recs
             /\ rec !! "start_point" = Some first
             /\ rec !! "second_station" = Some second).
Proof.
  split; [apply add_route_total|]. intros d' Hrun.
  apply add_route_returns in Hrun
    as (ts & tr & j & Hs & Hr & Hj & [(k & Hf & ->)|(k & Hf & Hnew & ->)]).
  - apply found_origin_Some in Hf as (s & Hin & Hp & Hk).
    eexists. split; [by apply select_all_returns|].
    exists (to_dict (columns (Route.Row j k first second, s))).
    split; [|by rewrite to_dict_start_point, to_dict_second_station; simpl; subst].
    do 2 apply list_elem_of_fmap_2. apply elem_of_join_on. simpl.
    split; [|done]. apply elem_of_app. right. left.
  - eexists. split; [by apply select_all_returns|].
    exists (to_dict (columns (Route.Row j k first second, Start.Row k first))).
    split; [|by rewrite to_dict_start_point, to_dict_second_station].
    do 2 apply list_elem_of_fmap_2. apply elem_of_join_on. simpl.
    split; [|split; [|done]]; apply elem_of_app; right; left.
Qed.

Lemma add_route_then_select_all_witness :
  exists d' recs,
    run (add_route "Moscow" "Kazan") fresh_db = (Ok (), d')
    /\ run select_all d' = (Ok recs, d')
    /\ exists rec, rec ∈ recs
         /\ rec !! "start_point" = Some "Moscow"
         /\ rec !! "second_station" = Some "Kazan".
Proof.
  destruct (add_route_then_select_all fresh_db "Moscow" "Kazan") as [Hret Hsel].
  destruct Hret as [d' Hd'].
  - split; eexists; reflexivity.
  - split; intros t [= <-]; split; simpl; by vm_compute.
  - destruct (Hsel d' Hd') as (recs & ? & ?). by exists d', recs.
Defined.

(** C3. On every store and for every text [find_end], what
    [select_route find_end] returns is what [select_all] returns, filtered
    to the records whose ["second_station"] is exactly [find_end], in the
    same order and with the same fields (and it raises when [select_all]
    does). *)
Theorem select_route_filters_select_all d find_end :
  (run (select_route find_end) d).1
  = result_map (filter (fun rec => rec !! "second_station" = Some find_end))
      (run select_all d).1.
Proof.
  rewrite run_select_route, run_select_all. simpl.
  unfold sql_select_join_where, sql_select_join.
  destruct (need_table "route" (route d)) as [tr|e]; [|done].
  destruct (need_table "start" (start d)) as [ts|e]; [|done]. simpl. f_equal.
  rewrite <- list_fmap_compose. rewrite <- list_fmap_compose.
  apply fmap_filter_agree. intros [r s]. simpl.
  rewrite to_dict_second_station. simpl. split; [by intros -> | by intros [= ->]].
Qed.

(** C10. [select_all] and [select_route] leave every store as it was. *)
Theorem selects_read_only d find_end :
  (run select_all d).2 = d /\ (run (select_route find_end) d).2 = d.
Proof. by rewrite run_select_all, run_select_route. Qed.

(** C4. [create_db] is idempotent on every store: a second call returns and
    leaves the store the first call left.  After it the catalogue lists
    [start] and [route] once each, and a table that existed before the call
    is kept as it was, rows and counter. *)
Theorem create_db_idempotent d :
  let d1 := (run create_db d).2 in
  (run create_db d).1 = Ok ()
  /\ run create_db d1 = (Ok (), d1)
  /\ tables d1 = ["start"; "route"]
  /\ tables (run create_db d1).2 = ["start"; "route"]
  /\ start d1 = Some (default (Table [] 0) (start d))
  /\ route d1 = Some (default (Table [] 0) (route d))
  /\ start_rows d1 = start_rows d
  /\ route_rows d1 = route_rows d.
Proof. by destruct d as [[ts|] [tr|]]. Qed.

(** C7. A call of [add_route first second] that returns has appended one
    route row [(j, k, first, second)] with a new key [j], and changed the
    origins as follows: when an origin with the text [first] exists, not at
    all; otherwise by appending one row [(k, first)] with a new key [k].
    Every row that was there is still there, unchanged and in place.  The
    call returns on every store that has both tables and room for a new
    row. *)
Theorem add_route_frame d first second :
  (initialized d -> has_room d ->
   exists d', run (add_route first second) d = (Ok (), d'))
  /\ (forall d', run (add_route first second) d = (Ok (), d') ->
      initialized d /\ initialized d'
      /\ exists k j,
           route_rows d' = (route_rows d ++ [Route.Row j k first second])%list
           /\ (j ∉ Route.route_id <$> route_rows d)
           /\ (if decide (first ∈ Start.start_point <$> start_rows d)
               then start d' = start d
               else start_rows d' = (start_rows d ++ [Start.Row k first])%list
                    /\ k ∉ (Start.name_id <$> start_rows d))).
Proof.
  split; [apply add_route_total|]. intros d' Hrun.
  apply add_route_returns in Hrun
    as (ts & tr & j & Hs & Hr & Hj & [(k & Hf & ->)|(k & Hf & Hnew & ->)]);
    (split; [unfold initialized; rewrite Hs, Hr; split; eexists; reflexivity|]);
    (split; [split; eexists; reflexivity|]);
    exists k, j; unfold start_rows, route_rows; rewrite Hs, Hr; simpl;
    (split; [done|]); (split; [by eapply new_rowid_not_in|]).
  - rewrite decide_True; [done|]. apply dec_stable. by rewrite <- found_origin_None, Hf.
  - rewrite decide_False; [|by apply found_origin_None].
    split; [done|]. by eapply new_rowid_not_in.
Qed.

Lemma add_route_frame_witness :
  exists d',
    run (add_route "Moscow" "Kazan") fresh_db = (Ok (), d')
    /\ start_rows d' = [Start.Row 1 "Moscow"]
    /\ route_rows d' = [Route.Row 1 1 "Moscow" "Kazan"].
Proof.
  destruct (add_route_frame fresh_db "Moscow" "Kazan") as [Hret Hframe].
  destruct Hret as [d' Hd'].
  - split; eexists; reflexivity.
  - split; intros t [= <-]; split; simpl; by vm_compute.
  - exists d'. split; [done|].
    destruct (Hframe d' Hd') as (_ & _ & k & j & _).
    by injection Hd' as <-.
Defined.

(** ** Invariants of the reachable stores *)

(** In a table with unique texts, a text selects one row. *)
Lemma filter_unique_text (ss : list Start.row) o :
  NoDup (Start.start_point <$> ss) -> o ∈ ss ->
  filter (fun s => Start.start_point s = Start.start_point o) ss = [o].
Proof.
  induction ss as [|a ss IH]; [by intros _ ?%elem_of_nil|].
  rewrite fmap_cons, NoDup_cons. intros [Ha Hss] Hin.
  apply elem_of_cons in Hin as [->|Hin].
  - rewrite filter_cons_True by done. f_equal.
    destruct (filter _ ss) as [|b l] eqn:Hl; [done|]. exfalso. apply Ha.
    assert (b ∈ filter (fun s => Start.start_point s = Start.start_point a) ss) as Hb
      by (rewrite Hl; left).
    apply list_elem_of_filter in Hb as [<- ?]. by apply list_elem_of_fmap_2.
  - rewrite filter_cons_False; [by apply IH|].
    intros E. apply Ha. rewrite E. by apply list_elem_of_fmap_2.
Qed.

(** C2. In every store the program can reach from a new file the texts of
    the origins are pairwise different.  Two calls of [add_route] with the
    same [first], one after the other, leave a single origin with that text:
    the second call adds no origin, and the two route rows added carry the
    key of that origin. *)
Theorem origin_texts_unique :
  (forall d, reachable d -> NoDup (Start.start_point <$> start_rows d))
  /\ (forall d first s1 s2 d1 d2,
        reachable d ->
        run (add_route first s1) d = (Ok (), d1) ->
        run (add_route first s2) d1 = (Ok (), d2) ->
        start d2 = start d1
        /\ exists o r1 r2,
             filter (fun s => Start.start_point s = first) (start_rows d2) = [o]
             /\ route_rows d2 = (route_rows d ++ [r1; r2])%list
             /\ Route.name_id r1 = Start.name_id o
             /\ Route.name_id r2 = Start.name_id o
             /\ Route.second_station r1 = s1
             /\ Route.second_station r2 = s2).
Proof.
  split; [by intros d [_ _ ? _]%reachable_consistent|].
  intros d first s1 s2 d1 d2 Hd H1 H2.
  assert (consistent d1) as [_ _ Ht1 _]
    by (eapply consistent_add; [by apply reachable_consistent|done]).
  assert (exists ts tr j1 k,
             start d1 = Some ts /\ route d = Some tr
             /\ route d1 = Some (Table (rows tr ++ [Route.Row j1 k first s1]) j1)
             /\ found_origin first (rows ts) = Some k) as (ts & tr & j1 & k & Hs1 & Hr & Hr1 & Hf1).
  { apply add_route_returns in H1
      as (ts & tr & j & Hs & Hr & Hj & [(k & Hf & ->)|(k & Hf & Hnew & ->)]).
    - exists ts, tr, j, k. by destruct ts.
    - eexists _, tr, j, k. repeat split; try done. by apply found_origin_stored. }
  apply add_route_returns in H2
    as (ts' & tr' & j2 & Hs' & Hr' & Hj2 & [(k' & Hf' & ->)|(k' & Hf' & _)]);
    rewrite Hs1 in Hs'; injection Hs' as <-; [|congruence].
  rewrite Hf1 in Hf'. injection Hf' as <-.
  rewrite Hr1 in Hr'. injection Hr' as <-. simpl.
  split; [done|].
  apply found_origin_Some in Hf1 as (o & Hin & <- & <-).
  exists o, (Route.Row j1 (Start.name_id o) (Start.start_point o) s1),
    (Route.Row j2 (Start.name_id o) (Start.start_point o) s2).
  unfold start_rows, route_rows in *. rewrite Hs1 in Ht1. rewrite Hr. simpl.
  split; [by apply filter_unique_text|]. by rewrite <- app_assoc.
Qed.

Lemma origin_texts_unique_witness :
  exists d1 d2 o r1 r2,
    run (add_route "A" "B") fresh_db = (Ok (), d1)
    /\ run (add_route "A" "C") d1 = (Ok (), d2)
    /\ NoDup (Start.start_point <$> start_rows d2)
    /\ start_rows d2 = [o]
    /\ route_rows d2 = [r1; r2]
    /\ Route.name_id r1 = Start.name_id o
    /\ Route.name_id r2 = Start.name_id o.
Proof.
  destruct origin_texts_unique as [Huniq Htwice].
  pose (d1 := (run (add_route "A" "B") fresh_db).2).
  pose (d2 := (run (add_route "A" "C") d1).2).
  destruct (Htwice fresh_db "A" "B" "C" d1 d2 reachable_fresh eq_refl eq_refl)
    as (_ & o & r1 & r2 & Ho & Hr & E1 & E2 & _).
  exists d1, d2, o, r1, r2. repeat split; try done.
  apply (Huniq d2), (reachable_step _ (OpAdd "A" "C")),
    (reachable_step _ (OpAdd "A" "B")), reachable_fresh.
Defined.

(** Referential integrity is kept by each operation, on any store. *)
Lemma referential_integrity_add first second d d' :
  referential_integrity d -> run (add_route first second) d = (Ok (), d') ->
  referential_integrity d'.
Proof.
  unfold referential_integrity. intros Hd Hrun r.
  apply add_route_returns in Hrun
    as (ts & tr & j & Hs & Hr & Hj & [(k & Hf & ->)|(k & Hf & Hnew & ->)]);
    unfold start_rows, route_rows in *; rewrite Hs, Hr in Hd; simpl in *;
    intros [Hin|Hin%list_elem_of_singleton]%elem_of_app; try subst r.
  - by apply Hd.
  - apply found_origin_Some in Hf as (s & ? & ? & ?). by exists s.
  - destruct (Hd _ Hin) as (s & ? & ?). exists s. split; [|done].
    apply elem_of_app. by left.
  - exists (Start.Row k first). split; [|done]. apply elem_of_app. right. left.
Qed.

Lemma referential_integrity_create d :
  referential_integrity d -> referential_integrity (run create_db d).2.
Proof. by destruct d as [[ts|] [tr|]]. Qed.

(** C6. Referential integrity is an invariant: each of [create_db],
    [add_route], [select_all] and [select_route] leaves it standing on any
    store where it holds, and in every store the program can reach from a
    new file each route row carries the [name_id] of an origin that
    exists. *)
Theorem referential_integrity_invariant :
  (forall o d, referential_integrity d -> referential_integrity (exec o d))
  /\ (forall d, reachable d ->
        forall r, r ∈ route_rows d ->
          exists s, s ∈ start_rows d /\ Start.name_id s = Route.name_id r).
Proof.
  assert (forall o d, referential_integrity d -> referential_integrity (exec o d)) as Hstep.
  { intros [|first second| |find_end] d Hd; unfold exec.
    - by apply referential_integrity_create.
    - destruct (run (add_route first second) d) as [[[]|e] d'] eqn:Hrun; cbn [snd].
      + eapply referential_integrity_add; eauto.
      + by apply add_route_raises in Hrun as ->.
    - by rewrite run_select_all.
    - by rewrite run_select_route. }
  split; [done|]. induction 1 as [|d o _ IH]; [|by apply Hstep].
  by intros r ?%elem_of_nil.
Qed.

Lemma referential_integrity_invariant_witness :
  let d := exec (OpAdd "Moscow" "Omsk") (exec (OpAdd "Moscow" "Kazan") fresh_db) in
  route_rows d = [Route.Row 1 1 "Moscow" "Kazan"; Route.Row 2 1 "Moscow" "Omsk"]
  /\ exists s, s ∈ start_rows d /\ Start.name_id s = 1.
Proof.
  split; [reflexivity|].
  apply (proj2 referential_integrity_invariant _
           (reachable_step _ (OpAdd "Moscow" "Omsk")
              (reachable_step _ (OpAdd "Moscow" "Kazan") reachable_fresh))
           (Route.Row 2 1 "Moscow" "Omsk")).
  right. left.
Defined.

(** In a consistent store, an origin and a route row with the same key have
    the same text. *)
Lemma consistent_first_station d :
  consistent d ->
  forall r s, r ∈ route_rows d -> s ∈ start_rows d ->
    Start.name_id s = Route.name_id r ->
    Start.start_point s = Route.first_station r.
Proof.
  intros [_ Hk _ Hl] r s Hr Hs E. rewrite Forall_forall in Hl.
  destruct (Hl _ Hr) as (s' & Hs' & E' & <-). f_equal.
  eapply (unique_key Start.name_id); eauto. congruence.
Qed.

(** Where origin and first leg agree, the two formatters print the same. *)
Lemma display_rows_same (routes : list (gmap string string)) (n : nat) :
  Forall (fun rec => get rec "start_point" = get rec "first_station") routes ->
  (p ← enumerate routes n;
   [format_row (pretty p.1) (get p.2 "start_point") (get p.2 "second_station"); line])
  = (p ← enumerate routes n;
     [format_row (pretty p.1) (get p.2 "first_station") (get p.2 "second_station"); line]).
Proof.
  intros H. revert n. induction H as [|rec routes E _ IH]; intros n; [done|].
  csimpl. by rewrite E, IH.
Qed.

Lemma display_first_leg_same (routes : list (gmap string string)) :
  Forall (fun rec => get rec "start_point" = get rec "first_station") routes ->
  display_routes routes = display_first_leg routes.
Proof.
  intros H. destruct routes as [|rec routes]; [done|].
  unfold display_routes, display_first_leg. f_equal. by apply display_rows_same.
Qed.

(** C9. In every store made from a new file by [add_route] alone, the origin
    a route row references has the row's [first_station] as its text, and
    every route row references one.  So in each record that [select_all] or
    [select_route] returns there, ["start_point"] and ["first_station"] are
    the same text, and [display_routes] prints what it would print if it
    showed the first-leg text. *)
Theorem first_station_is_origin d find_end :
  reachable_by_add d ->
  (forall r s, r ∈ route_rows d -> s ∈ start_rows d ->
     Start.name_id s = Route.name_id r ->
     Start.start_point s = Route.first_station r)
  /\ (forall r, r ∈ route_rows d ->
        exists s, s ∈ start_rows d /\ Start.name_id s = Route.name_id r)
  /\ exists all some,
       run select_all d = (Ok all, d)
       /\ run (select_route find_end) d = (Ok some, d)
       /\ Forall (fun rec => is_Some (rec !! "start_point")
                             /\ rec !! "start_point" = rec !! "first_station") all
       /\ Forall (fun rec => is_Some (rec !! "start_point")
                             /\ rec !! "start_point" = rec !! "first_station") some
       /\ display_routes all = display_first_leg all
       /\ display_routes some = display_first_leg some.
Proof.
  intros Hd%reachable_by_add_reachable%reachable_consistent.
  pose proof (consistent_first_station _ Hd) as Hfirst.
  destruct Hd as [[[ts Hs] [tr Hr]] Hk Ht Hl].
  split; [done|]. split.
  { intros r Hr'. rewrite Forall_forall in Hl.
    destruct (Hl _ Hr') as (s & ? & ? & _). by exists s. }
  eexists _, _.
  split; [by apply select_all_returns|].
  split; [by apply select_route_returns|].
  assert (forall l : list (Route.row * Start.row),
             l ⊆ join_on (rows ts) (rows tr) ->
             Forall (fun rec => is_Some (rec !! "start_point")
                                /\ rec !! "start_point" = rec !! "first_station")
               (to_dict <$> (columns <$> l))) as Hrecs.
  { intros l Hsub. rewrite <- list_fmap_compose. apply Forall_fmap, Forall_forall.
    intros [r s] Hin%Hsub%elem_of_join_on. simpl.
    rewrite to_dict_start_point, to_dict_first_station. simpl.
    split; [done|]. f_equal. apply Hfirst; unfold start_rows, route_rows;
      rewrite ?Hs, ?Hr; tauto. }
  assert (filter (fun p => Route.second_station p.1 = find_end)
            (join_on (rows ts) (rows tr)) ⊆ join_on (rows ts) (rows tr)) as Hsub
    by (intros p Hp; by apply list_elem_of_filter in Hp as [_ ?]).
  repeat split; try (by apply Hrecs);
    apply display_first_leg_same; (eapply Forall_impl; [by apply Hrecs|]);
    intros rec [_ E]; unfold get; by rewrite E.
Qed.

Lemma first_station_is_origin_witness :
  let d := exec (OpAdd "Moscow" "Omsk") (exec (OpAdd "Moscow" "Kazan") fresh_db) in
  route_rows d = [Route.Row 1 1 "Moscow" "Kazan"; Route.Row 2 1 "Moscow" "Omsk"]
  /\ start_rows d = [Start.Row 1 "Moscow"]
  /\ exists all, run select_all d = (Ok all, d)
                  /\ display_routes all = display_first_leg all.
Proof.
  split; [reflexivity|]. split; [reflexivity|].
  destruct (first_station_is_origin _ "Kazan"
              (by_add_step _ "Moscow" "Omsk"
                 (by_add_step _ "Moscow" "Kazan" by_add_fresh)))
    as (_ & _ & all & some & Hall & _ & _ & _ & Hshow & _).
  by exists all.
Defined.

(** ** The formatter *)

Lemma py_len_app a b : py_len (a +:+ b) = (py_len a + py_len b)%nat.
Proof. induction a as [|c a IH]; [done|]. simpl. rewrite IH. lia. Qed.

Lemma py_len_spaces n : py_len (rep n " ") = n.
Proof.
  induction n as [|n IH]; [done|].
  change (rep (S n) " ") with (" " +:+ rep n " "). by rewrite py_len_app, IH.
Qed.

(** A centred text fills its column, and overflows it when it is longer. *)
Lemma py_len_centre width s : py_len (centre width s) = (width `max` py_len s)%nat.
Proof.
  unfold centre. rewrite !py_len_app, !py_len_spaces.
  pose proof (Nat.Div0.mul_div_le (width - py_len s) 2). lia.
Qed.

Lemma append_empty s : s +:+ "" = s.
Proof.
  induction s as [|c s IH]; [done|].
  change (String c s +:+ "") with (String c (s +:+ "")). by rewrite IH.
Qed.

Lemma centre_long width s : (width <= py_len s)%nat -> centre width s = s.
Proof.
  intros H. unfold centre. replace (width - py_len s)%nat with 0%nat by lia.
  simpl. apply append_empty.
Qed.

Lemma py_len_format_row a b c :
  (py_len a <= 4)%nat -> (py_len b <= 30)%nat -> (py_len c <= 20)%nat ->
  py_len (format_row a b c) = 64%nat.
Proof.
  intros. unfold format_row. rewrite !py_len_app, !py_len_centre. simpl. lia.
Qed.

(** The lines of the body of the table, two for each record. *)
Lemma table_rows_length {A} (f : nat * A -> string) (routes : list A) n :
  length (p ← enumerate routes n; [f p; line]) = (2 * length routes)%nat.
Proof.
  revert n. induction routes as [|x routes IH]; intros n; [done|].
  csimpl. rewrite IH. lia.
Qed.

Lemma table_rows_cons {A} (f : nat * A -> string) (x : A) (routes : list A) n :
  (p ← enumerate (x :: routes) n; [f p; line])
  = f (n, x) :: line :: (p ← enumerate routes (S n); [f p; line]).
Proof. done. Qed.

Lemma table_rows_lookup {A} (f : nat * A -> string) (routes : list A) n i x :
  routes !! i = Some x ->
  (p ← enumerate routes n; [f p; line]) !! (2 * i)%nat = Some (f ((n + i)%nat, x))
  /\ (p ← enumerate routes n; [f p; line]) !! (1 + 2 * i)%nat = Some line.
Proof.
  revert n i. induction routes as [|y routes IH]; intros n i Hi; [done|].
  rewrite table_rows_cons. destruct i as [|i].
  - injection Hi as ->. by rewrite Nat.add_0_r.
  - destruct (IH (S n) i Hi) as [H1 H2].
    replace (1 + 2 * S i)%nat with (S (S (1 + 2 * i))) by lia.
    replace (2 * S i)%nat with (S (S (2 * i))) by lia.
    replace (n + S i)%nat with (S n + i)%nat by lia.
    split; [exact H1 | exact H2].
Qed.

Lemma table_rows_fmap {A} (f : nat * A -> string) (g : A -> A) (routes : list A) n :
  (forall k x, f (k, g x) = f (k, x)) ->
  (p ← enumerate (g <$> routes) n; [f p; line])
  = (p ← enumerate routes n; [f p; line]).
Proof.
  intros Hf. revert n. induction routes as [|x routes IH]; intros n; [done|].
  csimpl. by rewrite Hf, IH.
Qed.

Lemma display_routes_nonempty (routes : list (gmap string string)) :
  routes <> [] ->
  display_routes routes
  = ([line; format_row "№" "Место отправки" "Место прибытия"; line]
     ++ (p ← enumerate routes 1;
         [format_row (pretty p.1) (get p.2 "start_point") (get p.2 "second_station");
          line]))%list.
Proof. by destruct routes. Qed.

(** C5 (as the program has it).  For a non-empty list of records
    [display_routes] prints a bordered table with columns of width 4, 30 and
    20: a border, the header row with the labels "№", "Место отправки" and
    "Место прибытия", a border, and for the record at position [i] (from 0) a
    row with the number [i + 1], its ["start_point"] and its
    ["second_station"], each centred in its column, then a border.  The
    ["first_station"] of a record is not shown.  A row whose texts fit their
    columns is as wide as the border; a longer text is printed whole. *)
Theorem display_routes_table (routes : list (gmap string string)) :
  routes <> [] ->
  let out := display_routes routes in
  length out = (3 + 2 * length routes)%nat
  /\ out !! 0%nat
     = Some "+------+--------------------------------+----------------------+"
  /\ out !! 1%nat
     = Some "|  №   |         Место отправки         |    Место прибытия    |"
  /\ out !! 2%nat
     = Some "+------+--------------------------------+----------------------+"
  /\ (forall i station, routes !! i = Some station ->
        out !! (3 + 2 * i)%nat
        = Some (format_row (pretty (S i)) (get station "start_point")
                  (get station "second_station"))
        /\ out !! (4 + 2 * i)%nat
           = Some "+------+--------------------------------+----------------------+")
  /\ (forall x, display_routes (<["first_station" := x]> <$> routes) = out)
  /\ (forall a b c,
        (py_len a <= 4)%nat -> (py_len b <= 30)%nat -> (py_len c <= 20)%nat ->
        py_len (format_row a b c) = py_len line)
  /\ (forall width s, (width <= py_len s)%nat -> centre width s = s).
Proof.
  intros Hne out. subst out. rewrite (display_routes_nonempty _ Hne).
  split; [by rewrite length_app, table_rows_length|].
  do 3 (split; [reflexivity|]).
  split; [|split; [|split]].
  - intros i station Hi.
    destruct (table_rows_lookup
                (fun p => format_row (pretty p.1) (get p.2 "start_point")
                            (get p.2 "second_station")) routes 1 i station Hi)
      as [H1 H2].
    split; [exact H1 | exact H2].
  - intros x. rewrite display_routes_nonempty by (by destruct routes).
    f_equal.
    apply (table_rows_fmap
             (fun p => format_row (pretty p.1) (get p.2 "start_point")
                         (get p.2 "second_station"))).
    intros k y. unfold get. simpl. by rewrite !lookup_insert_ne.
  - intros. by rewrite py_len_format_row.
  - apply centre_long.
Qed.

Lemma display_routes_table_witness :
  display_routes [to_dict ("Moscow", "Tver", "Kazan")] !! 3%nat
  = Some "|  1   |             Moscow             |        Kazan         |".
Proof.
  pose (station := to_dict ("Moscow", "Tver", "Kazan")).
  assert ([station] <> []) as Hne by done.
  destruct (display_routes_table [station] Hne) as (_ & _ & _ & _ & Hrow & _).
  destruct (Hrow 0%nat station eq_refl) as [H _].
  etransitivity; [exact H|]. by vm_compute.
Defined.

(** The header the program prints is in Russian: the row with the labels
    "Origin" and "Destination" is not printed, and no printed line holds
    either word.  And a row is wider than the border when a text does not
    fit its column: here the origin has 32 characters. *)
Lemma display_routes_header_labels :
  let out := display_routes [to_dict ("Moscow", "Moscow", "Kazan")] in
  let wide :=
    display_routes [to_dict ("Petropavlovsk-Kamchatsky Airport", "Elizovo", "Kazan")] in
  out !! 1%nat
  = Some "|  №   |         Место отправки         |    Место прибытия    |"
  /\ out !! 1%nat <> Some (format_row "№" "Origin" "Destination")
  /\ (format_row "№" "Origin" "Destination" ∉ out)
  /\ Forall (fun l => String.index 0 "Origin" l = None
                      /\ String.index 0 "Destination" l = None) out
  /\ py_len <$> wide !! 2%nat = Some 64%nat
  /\ py_len <$> wide !! 3%nat = Some 66%nat.
Proof.
  split; [reflexivity|]. split; [by vm_compute|]. split; [|split].
  - intros H. vm_compute in H.
    repeat (apply elem_of_cons in H as [H|H]; [discriminate H|]).
    by apply elem_of_nil in H.
  - by repeat (apply Forall_cons; split; [by vm_compute|]).
  - by vm_compute.
Qed.

(** C8. For the empty list [display_routes] prints one line, the message
    "Список маршрутов пуст." (the list of routes is empty): no border and no
    header row.  This is what [display] prints on a new file. *)
Theorem display_routes_empty :
  display_routes [] = ["Список маршрутов пуст."]
  /\ (line ∉ display_routes [])
  /\ (format_row "№" "Место отправки" "Место прибытия" ∉ display_routes [])
  /\ main Display empty_db = (Ok ["Список маршрутов пуст."], fresh_db).
Proof.
  split; [reflexivity|]. repeat split.
  - intros H%list_elem_of_singleton. discriminate H.
  - intros H%list_elem_of_singleton. discriminate H.
Qed.

(** ** The scenario of the specification *)

(** [add -f Moscow -s Kazan], then [add -f Moscow -s Omsk], then
    [select --second Kazan], on a new file: the table has one data row, with
    "Moscow" and "Kazan". *)
Example scenario_select_kazan :
  let d1 := (main (Add "Moscow" "Kazan") empty_db).2 in
  let d2 := (main (Add "Moscow" "Omsk") d1).2 in
  (main (Select "Kazan") d2).1
  = Ok ["+------+--------------------------------+----------------------+";
        "|  №   |         Место отправки         |    Место прибытия    |";
        "+------+--------------------------------+----------------------+";
        "|  1   |             Moscow             |        Kazan         |";
        "+------+--------------------------------+----------------------+"].
Proof. by vm_compute. Qed.

(** The destination is matched as it is written: [select --second kazan]
    finds nothing in that store. *)
Example select_is_case_sensitive :
  let d1 := (main (Add "Moscow" "Kazan") empty_db).2 in
  let d2 := (main (Add "Moscow" "Omsk") d1).2 in
  (run (select_route "kazan") d2).1 = Ok []
  /\ (main (Select "kazan") d2).1 = Ok ["Список маршрутов пуст."].
Proof. by vm_compute. Qed.

(** * Further properties of the program *)

(** ** Keys *)

Lemma largest_elem keys m : largest keys = Some m -> m ∈ keys.
Proof.
  destruct keys as [|k0 ks]; [done|]. simpl. intros [= <-].
  revert k0. induction ks as [|k1 ks IH]; intros k0; simpl; [left|].
  destruct (Z.max_spec k1 (foldr Z.max k0 ks)) as [[_ ->]|[_ ->]].
  - specialize (IH k0). apply elem_of_cons in IH as [->|IH]; [left|].
    right. by right.
  - right. left.
Qed.

(** The largest key is the one no key exceeds. *)
Lemma largest_is keys m : m ∈ keys -> Forall (fun k => k <= m) keys -> largest keys = Some m.
Proof.
  intros Hin Hle. destruct (largest keys) as [m'|] eqn:Hm.
  - f_equal. pose proof (largest_bound _ _ _ Hm Hin).
    apply largest_elem in Hm. rewrite Forall_forall in Hle.
    specialize (Hle _ Hm). lia.
  - destruct keys; [by apply elem_of_nil in Hin | done].
Qed.

Lemma largest_seqZ n : (0 < n)%nat -> largest (seqZ 1 (Z.of_nat n)) = Some (Z.of_nat n).
Proof.
  intros Hn. apply largest_is.
  - apply elem_of_seqZ. lia.
  - apply Forall_forall. intros k Hk%elem_of_seqZ. lia.
Qed.

(** In a table with keys [1 .. n], the next key is [n + 1], as long as [n]
    is not the largest rowid. *)
Lemma new_rowid_dense n :
  Z.of_nat n < MAX_ROWID ->
  new_rowid (seqZ 1 (Z.of_nat n)) (Z.of_nat n) = Ok (Z.of_nat (S n)).
Proof.
  intros Hn. unfold new_rowid. destruct n as [|n].
  - by rewrite bool_decide_eq_false_2 by (intros [?|?]; done).
  - rewrite largest_seqZ by lia.
    assert (Z.of_nat (S n) <> MAX_ROWID) as Hne by lia.
    rewrite bool_decide_eq_false_2 by (intros [?|?]; congruence).
    f_equal. lia.
Qed.

Lemma new_rowid_room {R} (key : R -> Z) (t : table R) :
  room key t <-> exists k, new_rowid (key <$> rows t) (seq t) = Ok k.
Proof.
  unfold room, new_rowid. case_bool_decide as H.
  - split; [intros [? ?]; tauto | by intros [k ?]].
  - split; [eauto|]. intros _. tauto.
Qed.

(** A new key exceeds the counter as well: no key is handed out twice, even
    after rows have gone. *)
Lemma new_rowid_above_seq keys sq k : new_rowid keys sq = Ok k -> sq < k.
Proof. unfold new_rowid. case_bool_decide; [done|]. intros [= <-]. lia. Qed.


Lemma sorted_snoc (l : list Z) k :
  StronglySorted Z.lt l -> Forall (fun x => x < k) l -> StronglySorted Z.lt (l ++ [k]).
Proof.
  induction 1 as [|x l Hl IH Hx]; intros Hk; simpl.
  - repeat constructor.
  - apply Forall_cons in Hk as [? ?]. constructor; [by apply IH|].
    apply Forall_app. split; [done|]. by apply Forall_singleton.
Qed.

Lemma sorted_NoDup (l : list Z) : StronglySorted Z.lt l -> NoDup l.
Proof.
  induction 1 as [|x l Hl IH Hx]; constructor; [|done].
  intros Hin. rewrite Forall_forall in Hx. specialize (Hx _ Hin). lia.
Qed.

(** ** When [add_route] returns, and what it leaves when it raises *)





(** X3. [add_route] keeps the rows of each table in key order, on any
    store: a new row comes last and its key is the largest of its table.  So
    the keys of a table stay pairwise different. *)
Theorem add_route_ascending_keys d first second d' :
  ascending_keys d ->
  run (add_route first second) d = (Ok (), d') ->
  ascending_keys d'
  /\ NoDup (Start.name_id <$> start_rows d')
  /\ NoDup (Route.route_id <$> route_rows d').
Proof.
  intros Hd Hrun.
  assert (ascending_keys d') as [Hs' Hr'].
  { destruct Hd as [Hs Hr]. apply add_route_returns in Hrun
      as (ts & tr & j & Es & Er & Hj & [(k & Hf & ->)|(k & Hf & Hk & ->)]);
      unfold ascending_keys, start_rows, route_rows in *; rewrite Es, Er in *;
      simpl; rewrite ?fmap_app; simpl;
      (split; [done || (apply sorted_snoc; [done | by eapply new_rowid_fresh])|]);
      apply sorted_snoc; (done || by eapply new_rowid_fresh). }
  split; [done|]. split; eapply sorted_NoDup; eauto.
Qed.

Lemma add_route_ascending_keys_witness :
  let d := Db (Some (Table [Start.Row 7 "Omsk"] 9))
              (Some (Table [Route.Row 3 7 "Omsk" "Tver"] 3)) in
  exists d', run (add_route "Moscow" "Kazan") d = (Ok (), d')
             /\ ascending_keys d'
             /\ Start.name_id <$> start_rows d' = [7; 10]
             /\ Route.route_id <$> route_rows d' = [3; 4].
Proof.
  intros d. exists (run (add_route "Moscow" "Kazan") d).2.
  split; [reflexivity|]. split; [|done].
  apply (add_route_ascending_keys d "Moscow" "Kazan"); [|reflexivity].
  split; repeat constructor.
Defined.

(** ** The subcommands *)

Lemma create_db_makes_initialized d : initialized (run create_db d).2.
Proof. destruct d as [[ts|] [tr|]]; split; eexists; reflexivity. Qed.

Lemma create_db_rows d :
  start_rows (run create_db d).2 = start_rows d
  /\ route_rows (run create_db d).2 = route_rows d.
Proof. by destruct d as [[ts|] [tr|]]. Qed.

Lemma main_add_store d first second :
  (main (Add first second) d).2 = exec (OpAdd first second) (exec OpCreate d).
Proof.
  unfold main, exec. rewrite run_create_db. simpl.
  by destruct (run (add_route first second) _).
Qed.

Lemma exec_add_initialized d first second :
  initialized d -> initialized (exec (OpAdd first second) d).
Proof.
  intros Hd. unfold exec.
  destruct (run (add_route first second) d) as [[[]|e] d'] eqn:Hrun; simpl.
  - apply add_route_returns in Hrun
      as (ts & tr & j & _ & _ & _ & [(k & _ & ->)|(k & _ & _ & ->)]);
      split; eexists; reflexivity.
  - by apply add_route_raises in Hrun as ->.
Qed.




(** ** The join *)

Lemma join_on_cons ss r rs :
  join_on ss (r :: rs)
  = (((fun s => (r, s)) <$> filter (fun s => Start.name_id s = Route.name_id r) ss)
     ++ join_on ss rs)%list.
Proof.
  unfold join_on. csimpl. by f_equal.
Qed.

Lemma join_on_app ss rs1 rs2 :
  join_on ss (rs1 ++ rs2) = (join_on ss rs1 ++ join_on ss rs2)%list.
Proof.
  induction rs1 as [|r rs1 IH]; [done|].
  rewrite <- app_comm_cons, !join_on_cons, IH. by rewrite app_assoc.
Qed.

Lemma filter_no_key (ss : list Start.row) k :
  k ∉ Start.name_id <$> ss -> filter (fun s => Start.name_id s = k) ss = [].
Proof.
  intros Hk. induction ss as [|a ss IH]; [done|].
  rewrite fmap_cons, not_elem_of_cons in Hk. destruct Hk as [? ?].
  rewrite filter_cons_False by congruence. by apply IH.
Qed.

(** With unique keys, a key selects at most one origin. *)
Lemma filter_one_key (ss : list Start.row) k :
  NoDup (Start.name_id <$> ss) ->
  filter (fun s => Start.name_id s = k) ss
  = option_list (head (filter (fun s => Start.name_id s = k) ss)).
Proof.
  induction ss as [|a ss IH]; [done|].
  rewrite fmap_cons, NoDup_cons. intros [Ha Hss].
  destruct (decide (Start.name_id a = k)) as [<-|Hne].
  - rewrite filter_cons_True by done. simpl. by rewrite filter_no_key.
  - rewrite filter_cons_False by done. by apply IH.
Qed.

Lemma filter_by_key (ss : list Start.row) o :
  NoDup (Start.name_id <$> ss) -> o ∈ ss ->
  filter (fun s => Start.name_id s = Start.name_id o) ss = [o].
Proof.
  intros Hnd Hin. rewrite filter_one_key by done.
  destruct (filter _ ss) as [|s l] eqn:Hl.
  - assert (o ∈ filter (fun s => Start.name_id s = Start.name_id o) ss) as Ho
      by (by apply list_elem_of_filter).
    rewrite Hl in Ho. by apply elem_of_nil in Ho.
  - simpl. f_equal.
    assert (s ∈ filter (fun s => Start.name_id s = Start.name_id o) ss) as Hs
      by (rewrite Hl; left).
    apply list_elem_of_filter in Hs as [? ?].
    by apply (unique_key Start.name_id ss).
Qed.

Lemma omap_shorter {A B} (f : A -> option B) (l : list A) :
  (length (omap f l) <= length l)%nat.
Proof.
  induction l as [|a l IH]; [done|]. csimpl. destruct (f a); simpl; lia.
Qed.

(** X6. On a store whose origins have pairwise different keys, [select_all]
    returns at most one record for each route row, in row order: the record
    made with the origin of the row's [name_id], and none for a row whose
    [name_id] is the key of no origin.  The foreign key is not enforced, so
    such rows can be there; the join leaves them out. *)
Theorem select_all_one_per_row d ts tr :
  start d = Some ts -> route d = Some tr ->
  NoDup (Start.name_id <$> rows ts) ->
  (run select_all d).1
  = Ok (omap (fun r => joined r <$> origin_of (rows ts) r) (rows tr))
  /\ (length (omap (fun r => joined r <$> origin_of (rows ts) r) (rows tr))
      <= length (rows tr))%nat
  /\ (forall r, Route.name_id r ∉ Start.name_id <$> rows ts ->
        origin_of (rows ts) r = None).
Proof.
  intros Hs Hr Hnd. split; [|split].
  - rewrite (select_all_returns _ _ _ Hs Hr). simpl. f_equal.
    induction (rows tr) as [|r rs IH]; [done|].
    rewrite join_on_cons, !fmap_app, IH. simpl. unfold origin_of.
    rewrite (filter_one_key (rows ts) (Route.name_id r)) by done.
    by destruct (head _).
  - apply omap_shorter.
  - intros r Hr'. unfold origin_of. by rewrite filter_no_key.
Qed.

Lemma select_all_one_per_row_witness :
  let d := Db (Some (Table [Start.Row 1 "Moscow"] 1))
              (Some (Table [Route.Row 1 1 "Moscow" "Kazan";
                            Route.Row 2 5 "Omsk" "Tver"] 2)) in
  (run select_all d).1 = Ok [to_dict ("Moscow", "Moscow", "Kazan")].
Proof.
  intros d.
  destruct (select_all_one_per_row d _ _ eq_refl eq_refl) as [H _].
  - apply NoDup_singleton.
  - exact H.
Defined.

Lemma join_on_new_origin ss o rs :
  (forall r, r ∈ rs -> Route.name_id r <> Start.name_id o) ->
  join_on (ss ++ [o]) rs = join_on ss rs.
Proof.
  induction rs as [|r rs IH]; intros Hne; [done|].
  rewrite !join_on_cons, IH by (intros r' Hr'; apply Hne; by right).
  rewrite filter_app, filter_cons_False by (intros E; by apply (Hne r); [left|]).
  by rewrite app_nil_r.
Qed.

(** X7. On a store where the origins have pairwise different keys and every
    route row references an origin, a call of [add_route first second] that
    returns adds one record to what [select_all] returns, at the end, and
    changes nothing before it: the record with [first] as origin and as
    first leg and [second] as destination. *)
Theorem add_route_appends_record d first second d' :
  NoDup (Start.name_id <$> start_rows d) ->
  referential_integrity d ->
  run (add_route first second) d = (Ok (), d') ->
  exists recs,
    run select_all d = (Ok recs, d)
    /\ run select_all d' = (Ok (recs ++ [record_of (first, second)])%list, d').
Proof.
  intros Hnd Href Hrun.
  apply add_route_returns in Hrun
    as (ts & tr & j & Hs & Hr & Hj & [(k & Hf & ->)|(k & Hf & Hk & ->)]);
    unfold referential_integrity, start_rows, route_rows in *;
    rewrite Hs in Hnd, Href; rewrite Hr in Href;
    eexists; (split; [by apply select_all_returns|]);
    erewrite select_all_returns by reflexivity; simpl; do 2 f_equal.
  - rewrite join_on_app, !fmap_app. f_equal.
    apply found_origin_Some in Hf as (s & Hin & <- & <-).
    rewrite join_on_cons. simpl. by rewrite filter_by_key.
  - rewrite join_on_app, !fmap_app. f_equal.
    + rewrite join_on_new_origin; [done|]. simpl. intros r Hin Ek.
      destruct (Href _ Hin) as (s & Hs' & E).
      apply new_rowid_not_in in Hk. apply Hk. rewrite <- Ek, <- E.
      by apply list_elem_of_fmap_2.
    + rewrite join_on_cons. simpl. rewrite filter_app, filter_no_key
        by (by eapply new_rowid_not_in).
      by rewrite filter_cons_True.
Qed.

Lemma add_route_appends_record_witness :
  let d := exec (OpAdd "Moscow" "Kazan") fresh_db in
  exists d',
    run (add_route "Omsk" "Tver") d = (Ok (), d')
    /\ (run select_all d').1
       = Ok [record_of ("Moscow", "Kazan"); record_of ("Omsk", "Tver")].
Proof.
  intros d. exists (run (add_route "Omsk" "Tver") d).2. split; [reflexivity|].
  destruct (add_route_appends_record d "Omsk" "Tver"
              (run (add_route "Omsk" "Tver") d).2 (NoDup_singleton 1))
    as (recs & Hbefore & ->); [|reflexivity|].
  - intros r Hr%list_elem_of_singleton. subst r.
    exists (Start.Row 1 "Moscow"). split; [left | done].
  - by injection Hbefore as <-.
Defined.

(** Without referential integrity this fails: a route row that references
    no origin is adopted by a new origin that is given its [name_id]. *)
Example add_route_adopts_orphan :
  let d := Db (Some (Table [] 0)) (Some (Table [Route.Row 1 1 "Omsk" "Tver"] 1)) in
  (run select_all d).1 = Ok []
  /\ (run select_all (exec (OpAdd "Moscow" "Kazan") d)).1
     = Ok [to_dict ("Moscow", "Omsk", "Tver"); to_dict ("Moscow", "Moscow", "Kazan")].
Proof. split; reflexivity. Qed.

(** ** The history of a store *)

Lemma new_rowid_dense_next n k :
  new_rowid (seqZ 1 (Z.of_nat n)) (Z.of_nat n) = Ok k -> k = Z.of_nat (S n).
Proof.
  unfold new_rowid. case_bool_decide; [done|]. intros [= <-]. destruct n as [|n].
  - done.
  - rewrite largest_seqZ by lia. lia.
Qed.

Lemma seqZ_snoc n : seqZ 1 (Z.of_nat (S n)) = (seqZ 1 (Z.of_nat n) ++ [Z.of_nat (S n)])%list.
Proof.
  replace (Z.of_nat (S n)) with (Z.of_nat n + 1) at 1 by lia.
  rewrite seqZ_app by lia. f_equal. rewrite seqZ_cons by lia.
  rewrite seqZ_nil by lia. f_equal. lia.
Qed.

(** A table with keys [1 .. n] has keys [1 .. n + 1] after an insert. *)
Lemma dense_insert {R} (key : R -> Z) (t : table R) (x : R) :
  dense key t ->
  new_rowid (key <$> rows t) (seq t) = Ok (key x) ->
  dense key (Table (rows t ++ [x]) (key x)).
Proof.
  intros [Hkeys Hseq] Hnew. rewrite Hkeys, Hseq in Hnew.
  apply new_rowid_dense_next in Hnew. unfold dense. simpl.
  rewrite length_app, fmap_app, Hkeys, Nat.add_1_r. simpl.
  by rewrite seqZ_snoc, Hnew.
Qed.

Lemma dense_room {R} (key : R -> Z) (t : table R) :
  dense key t -> Z.of_nat (length (rows t)) < MAX_ROWID -> room key t.
Proof.
  intros [Hkeys Hseq] Hlen. apply new_rowid_room. rewrite Hkeys, Hseq.
  eexists. by apply new_rowid_dense.
Qed.

Lemma recorded_fresh : recorded [] fresh_db.
Proof.
  split; [apply consistent_fresh|done| | | |done].
  - intros x. split; by intros ?%elem_of_nil.
  - by intros ts [= <-].
  - by intros tr [= <-].
Qed.

(** One more route: [add_route] returns, and the store holds the longer
    history. *)
Lemma recorded_add l d first second :
  recorded l d -> Z.of_nat (length l) < MAX_ROWID ->
  exists d', run (add_route first second) d = (Ok (), d')
             /\ recorded (l ++ [(first, second)]) d'.
Proof.
  intros [Hc Hl Ho Hsd Hrd Hfe] Hlen.
  destruct (cons_init _ Hc) as [[ts Hs] [tr Hr]].
  assert (length (rows tr) = length l) as Hn
    by (rewrite <- Hl; unfold route_rows; by rewrite Hr, length_fmap).
  unfold start_rows, route_rows in Hl, Ho, Hfe.
  rewrite Hs in Ho, Hfe. rewrite Hr in Hl, Hfe.
  specialize (Hsd _ Hs). specialize (Hrd _ Hr).
  destruct (add_route_total first second d) as [d' Hrun].
  { split; by eexists. }
  { split; intros t Ht; rewrite ?Hs, ?Hr in Ht; injection Ht as <-;
      apply dense_room; (done || lia). }
  exists d'. split; [done|].
  pose proof (consistent_add _ _ _ _ Hc Hrun) as Hc'.
  apply add_route_returns in Hrun
    as (ts' & tr' & j & Hs' & Hr' & Hj & [(k & Hf & ->)|(k & Hf & Hk & ->)]);
    rewrite Hs in Hs'; rewrite Hr in Hr'; injection Hs' as <-; injection Hr' as <-;
    (split; [done| | | | |]); unfold start_rows, route_rows; simpl.
  - by rewrite fmap_app, Hl.
  - intros x. rewrite fmap_app, elem_of_app, Ho. simpl.
    rewrite list_elem_of_singleton. split; [tauto|]. intros [?| ->]; [done|].
    apply found_origin_Some in Hf as (s & ? & <- & _).
    apply Ho. by apply list_elem_of_fmap_2.
  - by intros ? [= <-].
  - intros ? [= <-].
    by apply (dense_insert Route.route_id tr (Route.Row j k first second)).
  - rewrite length_app. simpl. lia.
  - by rewrite fmap_app, Hl.
  - intros x. rewrite !fmap_app, !elem_of_app, Ho. simpl.
    by rewrite !list_elem_of_singleton.
  - intros ? [= <-]. by apply (dense_insert Start.name_id ts (Start.Row k first)).
  - intros ? [= <-].
    by apply (dense_insert Route.route_id tr (Route.Row j k first second)).
  - rewrite !length_app. simpl. lia.
Qed.

(** In a consistent store every route row joins with its one origin, whose
    text is the first leg. *)
Lemma join_consistent ss rs :
  NoDup (Start.name_id <$> ss) -> Forall (linked ss) rs ->
  columns <$> join_on ss rs = (fun r => ((legs r).1, (legs r).1, (legs r).2)) <$> rs.
Proof.
  intros Hnd. induction 1 as [|r rs (s & Hin & Ek & Et) _ IH]; [done|].
  rewrite join_on_cons, fmap_app, IH, <- Ek, filter_by_key by done.
  simpl. unfold columns. simpl. by rewrite Et.
Qed.

Lemma recorded_select_all l d :
  recorded l d -> run select_all d = (Ok (record_of <$> l), d).
Proof.
  intros [[[[ts Hs] [tr Hr]] Hk _ Hlinks] Hl _ _ _ _].
  unfold start_rows, route_rows in *. rewrite Hs in Hk, Hlinks. rewrite Hr in Hl, Hlinks.
  rewrite (select_all_returns _ _ _ Hs Hr), join_consistent by done.
  subst l. by rewrite <- !list_fmap_compose.
Qed.

Lemma recorded_select_route l d find_end :
  recorded l d ->
  run (select_route find_end) d
  = (Ok (record_of <$> filter (fun p => p.2 = find_end) l), d).
Proof.
  intros [[[[ts Hs] [tr Hr]] Hk _ Hlinks] Hl _ _ _ _].
  unfold start_rows, route_rows in *. rewrite Hs in Hk, Hlinks. rewrite Hr in Hl, Hlinks.
  rewrite (select_route_returns _ _ _ _ Hs Hr). do 2 f_equal.
  assert (columns <$> filter (fun p => Route.second_station p.1 = find_end)
                        (join_on (rows ts) (rows tr))
          = filter (fun c => c.2 = find_end) (columns <$> join_on (rows ts) (rows tr)))
    as -> by (by apply fmap_filter_agree).
  rewrite join_consistent by done. subst l.
  assert (filter (fun c : string * string * string => c.2 = find_end)
            ((fun r => ((legs r).1, (legs r).1, (legs r).2)) <$> rows tr)
          = (fun r => ((legs r).1, (legs r).1, (legs r).2))
              <$> filter (fun r => Route.second_station r = find_end) (rows tr))
    as -> by (symmetry; by apply fmap_filter_agree).
  assert (filter (fun p : string * string => p.2 = find_end) (legs <$> rows tr)
          = legs <$> filter (fun r => Route.second_station r = find_end) (rows tr))
    as -> by (symmetry; by apply fmap_filter_agree).
  by rewrite <- !list_fmap_compose.
Qed.

Lemma add_all_snoc l p d :
  add_all (l ++ [p]) d = (main (Add p.1 p.2) (add_all l d)).2.
Proof. unfold add_all. by rewrite foldl_app. Qed.

Lemma add_all_recorded l :
  Z.of_nat (length l) <= MAX_ROWID -> recorded l (add_all l fresh_db).
Proof.
  induction l as [|[first second] l IH] using rev_ind; intros Hlen.
  - apply recorded_fresh.
  - rewrite length_app in Hlen. simpl in Hlen.
    destruct (recorded_add l _ first second (IH ltac:(lia)) ltac:(lia))
      as (d' & Hrun & Hd').
    rewrite add_all_snoc, main_add_store. unfold exec. cbn [fst snd].
    rewrite create_db_initialized by (apply IH; lia).
    by rewrite Hrun.
Qed.

(** The tables [create_db] would make at the end are the ones it makes at
    the start. *)
Lemma add_all_create l d :
  (run create_db (add_all l d)).2 = add_all l (run create_db d).2.
Proof.
  induction l as [|[first second] l IH] using rev_ind; [done|].
  rewrite !add_all_snoc, !main_add_store. unfold exec. cbn [fst snd].
  rewrite <- IH.
  rewrite (create_db_initialized (run create_db _).2)
    by apply create_db_makes_initialized.
  apply create_db_initialized.
  apply (exec_add_initialized _ first second), create_db_makes_initialized.
Qed.

(** X8. After [add] has been run for the pairs [l] on a new file, at most
    as many as there are rowids: the route rows are the pairs of [l] in
    order, with the keys [1], [2], ...; the origins have the keys [1], [2],
    ... too, and their texts are the first legs of [l], each once. *)
Theorem add_all_store (l : list (string * string)) :
  Z.of_nat (length l) <= MAX_ROWID ->
  let d := add_all l empty_db in
  legs <$> route_rows d = l
  /\ Route.route_id <$> route_rows d = seqZ 1 (Z.of_nat (length l))
  /\ Start.name_id <$> start_rows d = seqZ 1 (Z.of_nat (length (start_rows d)))
  /\ NoDup (Start.start_point <$> start_rows d)
  /\ (forall x, x ∈ Start.start_point <$> start_rows d <-> x ∈ l.*1)
  /\ Forall (linked (start_rows d)) (route_rows d).
Proof.
  intros Hlen d.
  destruct (create_db_rows d) as [Es Er]. unfold d in Es, Er.
  rewrite add_all_create in Es, Er. fold fresh_db in Es, Er. fold d in Es, Er.
  rewrite <- Es, <- Er.
  destruct (add_all_recorded l Hlen) as [[[[ts Hs] [tr Hr]] _ Ht Hlinks] Hl Ho Hsd Hrd _].
  destruct (Hsd _ Hs) as [Hsk _]. destruct (Hrd _ Hr) as [Hrk _].
  unfold start_rows, route_rows in *. rewrite Hs, Hr in *.
  repeat split; try done; try apply Ho.
  rewrite Hrk. do 2 f_equal. by rewrite <- Hl, length_fmap.
Qed.

Lemma add_all_store_witness :
  let d := add_all [("Moscow", "Kazan"); ("Omsk", "Tver"); ("Moscow", "Omsk")] empty_db in
  Route.route_id <$> route_rows d = [1; 2; 3]
  /\ Route.name_id <$> route_rows d = [1; 2; 1]
  /\ start_rows d = [Start.Row 1 "Moscow"; Start.Row 2 "Omsk"].
Proof.
  intros d.
  destruct (add_all_store [("Moscow", "Kazan"); ("Omsk", "Tver"); ("Moscow", "Omsk")])
    as (_ & Hkeys & _); [by vm_compute|].
  split; [exact Hkeys | done].
Defined.

(** X9. After [add] has been run for the pairs [l] on a new file, [display]
    prints the table of the records of [l], in the order of the calls, and
    [select --second X] prints the table of those with destination [X]. *)
Theorem add_all_display (l : list (string * string)) find_end :
  Z.of_nat (length l) <= MAX_ROWID ->
  (main Display (add_all l empty_db)).1 = Ok (display_routes (record_of <$> l))
  /\ (main (Select find_end) (add_all l empty_db)).1
     = Ok (display_routes (record_of <$> filter (fun p => p.2 = find_end) l)).
Proof.
  intros Hlen. pose proof (add_all_recorded l Hlen) as Hrec.
  pose proof (add_all_create l empty_db) as Hc. fold fresh_db in Hc.
  unfold main. rewrite run_create_db in *. simpl in Hc. rewrite Hc.
  by rewrite (recorded_select_all _ _ Hrec), (recorded_select_route _ _ find_end Hrec).
Qed.

Lemma add_all_display_witness :
  (main (Select "Kazan")
     (add_all [("Moscow", "Kazan"); ("Omsk", "Tver"); ("Tver", "Kazan")] empty_db)).1
  = Ok ["+------+--------------------------------+----------------------+";
        "|  №   |         Место отправки         |    Место прибытия    |";
        "+------+--------------------------------+----------------------+";
        "|  1   |             Moscow             |        Kazan         |";
        "+------+--------------------------------+----------------------+";
        "|  2   |              Tver              |        Kazan         |";
        "+------+--------------------------------+----------------------+"].
Proof.
  etransitivity;
    [apply (add_all_display
              [("Moscow", "Kazan"); ("Omsk", "Tver"); ("Tver", "Kazan")] "Kazan");
     by vm_compute|].
  by vm_compute.
Defined.

(** ** The table *)

(** Row numbers below 10000 fit the first column. *)
Lemma row_number_fits (n : nat) : Z.of_nat n < 10000 -> (py_len (pretty n) <= 4)%nat.
Proof.
  intros Hn.
  assert (forallb (fun k : nat => Nat.leb (py_len (pretty k)) 4)
            (List.seq 0 (Z.to_nat 10000)) = true)
    as Hall by (by vm_compute).
  rewrite forallb_forall in Hall. apply Nat.leb_le, Hall, in_seq. lia.
Qed.

Lemma table_rows_Forall {A} (P : string -> Prop) (f : nat * A -> string)
    (routes : list A) n :
  P line ->
  (forall i x, routes !! i = Some x -> P (f ((n + i)%nat, x))) ->
  Forall P (p ← enumerate routes n; [f p; line]).
Proof.
  intros Hline. revert n. induction routes as [|x routes IH]; intros n Hf.
  - constructor.
  - rewrite table_rows_cons. constructor; [|constructor; [done|]].
    + specialize (Hf 0%nat x eq_refl). by rewrite Nat.add_0_r in Hf.
    + apply IH. intros i y Hi. specialize (Hf (S i) y Hi).
      by replace (S n + i)%nat with (n + S i)%nat by lia.
Qed.

(** X10. The table is aligned: for a non-empty list of fewer than 10000
    records whose origin has at most 30 characters and whose destination at
    most 20, every line [display_routes] prints is 64 characters wide. *)
Theorem display_routes_aligned (routes : list (gmap string string)) :
  routes <> [] -> Z.of_nat (length routes) < 10000 -> Forall fits routes ->
  Forall (fun l => py_len l = 64%nat) (display_routes routes).
Proof.
  intros Hne Hlen Hfit. rewrite (display_routes_nonempty _ Hne).
  apply Forall_app. split; [by repeat constructor|].
  apply (table_rows_Forall (fun l => py_len l = 64%nat)); [done|].
  intros i station Hi. simpl.
  rewrite Forall_forall in Hfit.
  destruct (Hfit station) as [? ?]; [by eapply list_elem_of_lookup_2|].
  apply py_len_format_row; [|done|done].
  apply row_number_fits. apply lookup_lt_Some in Hi. lia.
Qed.

Lemma display_routes_aligned_witness :
  Forall (fun l => py_len l = 64%nat)
    (display_routes [record_of ("Москва", "Казань"); record_of ("Omsk", "Tver")]).
Proof.
  apply display_routes_aligned; [done | simpl; lia |].
  repeat constructor; by vm_compute.
Defined.

Lemma table_rows_same (l l' : list (gmap string string)) n :
  Forall2 same_cells l l' ->
  (p ← enumerate l n;
   [format_row (pretty p.1) (get p.2 "start_point") (get p.2 "second_station"); line])
  = (p ← enumerate l' n;
     [format_row (pretty p.1) (get p.2 "start_point") (get p.2 "second_station"); line]).
Proof.
  intros H. revert n. induction H as [|a b l l' [E1 E2] _ IH]; intros n; [done|].
  rewrite !table_rows_cons. simpl. by rewrite E1, E2, IH.
Qed.

(** X11. [display_routes] reads two keys of each record and nothing else:
    two lists of records that agree, record by record, on ["start_point"]
    and ["second_station"] print the same lines, a missing key counting as
    the empty text. *)
Theorem display_routes_same_cells (l l' : list (gmap string string)) :
  Forall2 same_cells l l' -> display_routes l = display_routes l'.
Proof.
  intros H. destruct H as [|a b l l' Hab H]; [done|].
  rewrite !display_routes_nonempty by done. f_equal.
  apply table_rows_same. by constructor.
Qed.

Lemma display_routes_same_cells_witness :
  display_routes [{["second_station" := "Kazan"]}]
  = display_routes [{["start_point" := ""; "second_station" := "Kazan"; "note" := "x"]}].
Proof.
  apply display_routes_same_cells. repeat constructor.
Defined.


(** ** Nothing to show, something to show *)

Lemma filter_none {A} (P : A -> Prop) `{!forall a, Decision (P a)} (l : list A) :
  (forall a, a ∈ l -> ~ P a) -> filter P l = [].
Proof.
  induction l as [|a l IH]; intros Hno; [done|].
  rewrite filter_cons_False by (apply Hno; left). apply IH.
  intros b Hb. apply Hno. by right.
Qed.

(** X13. On every store file, [display] prints the message "Список
    маршрутов пуст." alone when there is no route row, and
    [select --second X] prints it alone when no route row has the
    destination [X]. *)
Theorem main_nothing_to_show d find_end :
  (route_rows d = [] -> (main Display d).1 = Ok ["Список маршрутов пуст."])
  /\ ((forall r, r ∈ route_rows d -> Route.second_station r <> find_end) ->
      (main (Select find_end) d).1 = Ok ["Список маршрутов пуст."]).
Proof.
  destruct (create_db_makes_initialized d) as [[ts Hs] [tr Hr]].
  destruct (create_db_rows d) as [_ Hrows].
  pose proof (select_all_returns _ _ _ Hs Hr) as Hall.
  pose proof (select_route_returns find_end _ _ _ Hs Hr) as Hsome.
  unfold route_rows in Hrows at 1. rewrite Hr in Hrows.
  unfold main. rewrite run_create_db in *. simpl in *. rewrite Hall, Hsome. simpl.
  split.
  - intros Hnone. by rewrite Hrows, Hnone.
  - intros Hnone. rewrite filter_none; [done|].
    intros [r s] Hin%elem_of_join_on. simpl. apply Hnone. rewrite <- Hrows. tauto.
Qed.

Lemma main_nothing_to_show_witness :
  (main (Select "Omsk") (add_all [("Moscow", "Kazan")] empty_db)).1
  = Ok ["Список маршрутов пуст."].
Proof.
  apply main_nothing_to_show.
  intros r Hr%list_elem_of_singleton. by subst r.
Defined.

(** Each record of the list has its row in the table. *)
Lemma display_routes_row (routes : list (gmap string string)) station :
  station ∈ routes ->
  exists i : nat,
    display_routes routes !! (3 + 2 * i)%nat
    = Some (format_row (pretty (S i)) (get station "start_point")
              (get station "second_station")).
Proof.
  intros Hin. assert (routes <> []) as Hne by (by destruct Hin).
  apply list_elem_of_lookup in Hin as [i Hi]. exists i.
  rewrite (display_routes_nonempty _ Hne).
  destruct (table_rows_lookup
              (fun p => format_row (pretty p.1) (get p.2 "start_point")
                          (get p.2 "second_station")) routes 1 i station Hi)
    as [H1 _].
  exact H1.
Qed.

Lemma main_select_result d find_end :
  (main (Select find_end) d).1
  = result_map display_routes (run (select_route find_end) (run create_db d).2).1.
Proof.
  unfold main. rewrite run_create_db. simpl.
  by destruct (run (select_route find_end) _).
Qed.

(** X14. On every store file, when [add -f first -s second] has returned,
    [select --second second] prints a table with a row that shows [first]
    and [second]. *)
Theorem main_add_then_select d first second :
  (main (Add first second) d).1 = Ok [] ->
  exists lines (i : nat),
    (main (Select second) (main (Add first second) d).2).1 = Ok lines
    /\ lines !! (3 + 2 * i)%nat = Some (format_row (pretty (S i)) first second).
Proof.
  unfold main at 1 3. rewrite run_create_db. simpl.
  destruct (run (add_route first second) _) as [[[]|e] d'] eqn:Hrun; [|done].
  simpl. intros _.
  assert (exists ts tr o j,
             start d' = Some ts /\ route d' = Some tr
             /\ (Route.Row j (Start.name_id o) first second, o)
                  ∈ join_on (rows ts) (rows tr)
             /\ Start.start_point o = first) as (ts & tr & o & j & Hs & Hr & Hin & Ho).
  { apply add_route_returns in Hrun
      as (ts & tr & j & _ & _ & _ & [(k & Hf & ->)|(k & Hf & _ & ->)]).
    - apply found_origin_Some in Hf as (o & Hin & Ho & <-).
      eexists ts, _, o, j. repeat split; try done.
      apply elem_of_join_on. simpl. split; [|done]. apply elem_of_app. right. left.
    - eexists _, _, (Start.Row k first), j. repeat split; try done.
      apply elem_of_join_on. simpl.
      split; [|split; [|done]]; apply elem_of_app; right; left. }
  rewrite main_select_result, create_db_initialized by (split; by eexists).
  rewrite (select_route_returns _ _ _ _ Hs Hr). cbn [fst result_map].
  destruct (display_routes_row
              (to_dict <$> (columns <$>
                 filter (fun p => Route.second_station p.1 = second)
                   (join_on (rows ts) (rows tr))))
              (to_dict (columns (Route.Row j (Start.name_id o) first second, o))))
    as [i Hi].
  { do 2 apply list_elem_of_fmap_2. by apply list_elem_of_filter. }
  eexists _, i. split; [done|]. etransitivity; [exact Hi|]. unfold get.
  by rewrite to_dict_start_point, to_dict_second_station, <- Ho.
Qed.

Lemma main_add_then_select_witness :
  exists lines (i : nat),
    (main (Select "Kazan") (main (Add "Moscow" "Kazan") empty_db).2).1 = Ok lines
    /\ lines !! (3 + 2 * i)%nat = Some (format_row (pretty (S i)) "Moscow" "Kazan").
Proof. by apply main_add_then_select. Defined.

(** ** Every reachable store *)

Lemma consistent_select_all d :
  consistent d ->
  run select_all d = (Ok ((fun r => record_of (legs r)) <$> route_rows d), d).
Proof.
  intros [[[ts Hs] [tr Hr]] Hk _ Hlinks].
  unfold start_rows, route_rows in *. rewrite Hs in Hk, Hlinks. rewrite Hr in Hlinks.
  rewrite (select_all_returns _ _ _ Hs Hr), join_consistent, Hr by done.
  by rewrite <- !list_fmap_compose.
Qed.

(** X15. In every store the program can reach from a new file, [select_all]
    returns one record for each route row, in row order, and the origin of
    the record is the first leg of the row: no route is left out and none
    appears twice. *)
Theorem reachable_select_all d :
  reachable d ->
  run select_all d = (Ok ((fun r => record_of (legs r)) <$> route_rows d), d).
Proof. intros Hd. by apply consistent_select_all, reachable_consistent. Qed.

Lemma reachable_select_all_witness :
  let d := exec (OpAdd "Omsk" "Tver") (exec OpSelectAll (exec (OpAdd "Moscow" "Kazan") fresh_db)) in
  (run select_all d).1 = Ok [record_of ("Moscow", "Kazan"); record_of ("Omsk", "Tver")].
Proof.
  intros d. rewrite (reachable_select_all d); [done|].
  repeat apply reachable_step. apply reachable_fresh.
Defined.
